(** * Todo_ts: the reducer of [src/App.tsx] and its localStorage adapter

    The development embeds [todosReducer], [loadTodos] and [saveTodos]
    of [src/App.tsx] and proves the properties of the task collection.

    Conventions.
    - A JavaScript string is a sequence of UTF-16 code units; a Rocq
      [string] holds the code units U+0000..U+00FF, one per [ascii].
    - A JavaScript [number] is either finite, [NaN] or an infinity.  The
      program does no arithmetic on numbers: it stores [Date.now()], an
      integer count of milliseconds, tests [typeof] and serialises.  The
      finite numbers of the model are the integers.
    - [crypto.randomUUID()] and [Date.now()] read the platform; the value
      each call returns is an explicit input of the reducer ([Env]). *)

From Stdlib Require Import ZArith String Ascii Bool Lia.
From Stdlib Require Import DecimalString DecimalFacts DecimalPos DecimalZ.
From stdpp Require Import base decidable option list strings numbers gmap.

Local Open Scope string_scope.
Local Open Scope list_scope.
Local Open Scope Z_scope.

(** ** Types *)

Inductive number : Type :=
| Finite (z : Z)
| NaN
| Infinity (negative : bool).

(** [export type Todo] *)
Record Todo : Type := mkTodo {
  id : string;
  text : string;
  completed : bool;
  createdAt : number;
}.

(** [type Action], a discriminated union on the [type] tag.  The payload
    of [hydrate] is an array of records; [T] is what stands for a record
    ([Todo] itself, or the address of a [Todo] object in the object store
    below). *)
Inductive ActionOf (T : Type) : Type :=
| Add (text : string)
| Toggle (id : string)
| Remove (id : string)
| ClearCompleted
| Hydrate (todos : list T).

Arguments Add {T} text.
Arguments Toggle {T} id.
Arguments Remove {T} id.
Arguments ClearCompleted {T}.
Arguments Hydrate {T} todos.

Abbreviation Action := (ActionOf Todo).

#[global] Instance number_eq_dec : EqDecision number.
Proof. solve_decision. Defined.

#[global] Instance Todo_eq_dec : EqDecision Todo.
Proof. solve_decision. Defined.

(** ** The platform calls made by the reducer *)

(** The values returned by [crypto.randomUUID()] and [Date.now()] during
    one application of the reducer. *)
Record Env : Type := mkEnv {
  randomUUID : string;
  now : Z;
}.

(** [String.prototype.trim]: strips WhiteSpace and LineTerminator code
    units from both ends.  Below U+0100 these are TAB, LF, VT, FF, CR,
    SPACE and NO-BREAK SPACE. *)
Definition is_white_space (c : ascii) : bool :=
  let n := N_of_ascii c in
  ((9 <=? n) && (n <=? 13))%N || (n =? 32)%N || (n =? 160)%N.

Fixpoint trimStart (s : string) : string :=
  match s with
  | EmptyString => EmptyString
  | String c s' => if is_white_space c then trimStart s' else s
  end.

Fixpoint trimEnd (s : string) : string :=
  match s with
  | EmptyString => EmptyString
  | String c s' =>
      match trimEnd s' with
      | EmptyString => if is_white_space c then EmptyString else String c EmptyString
      | r => String c r
      end
  end.

Definition trim (s : string) : string := trimEnd (trimStart s).

(** ** The reducer *)

(** [{ ...t, completed: !t.completed }] *)
Definition flip_completed (t : Todo) : Todo :=
  {| id := id t; text := text t; completed := negb (completed t);
     createdAt := createdAt t |}.

(** [function todosReducer(state: Todo[], action: Action): Todo[]] *)
Definition todosReducer (env : Env) (state : list Todo) (action : Action)
  : list Todo :=
  match action with
  | Hydrate todos => todos
  | Add txt =>
      if decide (trim txt = "") then state
      else {| id := randomUUID env; text := trim txt; completed := false;
              createdAt := Finite (now env) |} :: state
  | Toggle i =>
      (λ t, if decide (id t = i) then flip_completed t else t) <$> state
  | Remove i => filter (λ t, id t ≠ i) state
  | ClearCompleted => filter (λ t, completed t = false) state
  end.

(** ** The reducer over an object store

    A [Todo] value of the program is an object with an identity.  The
    store below records every [Todo] object created so far, an object's
    address being its position; an array of records is a list of
    addresses.  Object literals ([{ id: ..., ... }] and the spread
    [{ ...t, completed: !t.completed }]) allocate; [map] and [filter]
    build their result from the addresses already in the array. *)

Abbreviation ref := nat (only parsing).
Abbreviation heap := (list Todo).

Definition alloc (h : heap) (o : Todo) : heap * ref := (h ++ [o], length h).

(** The records an array of addresses denotes. *)
Fixpoint read (h : heap) (state : list ref) : list Todo :=
  match state with
  | [] => []
  | p :: rest =>
      match h !! p with
      | Some t => t :: read h rest
      | None => read h rest
      end
  end.

Definition allocated (h : heap) (state : list ref) : Prop :=
  Forall (λ p, (p < length h)%nat) state.

(** The callback of a [filter]: the test [P] on the record at an address. *)
Definition holds_at (P : Todo → Prop) (h : heap) (p : ref) : Prop :=
  match h !! p with
  | Some t => P t
  | None => False
  end.

#[global] Instance holds_at_dec (P : Todo → Prop) `{!∀ t, Decision (P t)}
  (h : heap) (p : ref) : Decision (holds_at P h p).
Proof. unfold holds_at. destruct (h !! p); apply _. Defined.

(** [state.map((t) => (t.id === action.id ? { ...t, completed: !t.completed } : t))] *)
Fixpoint map_toggle (h : heap) (i : string) (state : list ref)
  : heap * list ref :=
  match state with
  | [] => (h, [])
  | p :: rest =>
      match h !! p with
      | Some t =>
          if decide (id t = i) then
            let '(h1, q) := alloc h (flip_completed t) in
            let '(h2, rest') := map_toggle h1 i rest in
            (h2, q :: rest')
          else
            let '(h2, rest') := map_toggle h i rest in
            (h2, p :: rest')
      | None =>
          let '(h2, rest') := map_toggle h i rest in
          (h2, p :: rest')
      end
  end.

Definition todosReducer_obj (env : Env) (h : heap) (state : list ref)
  (action : ActionOf ref) : heap * list ref :=
  match action with
  | Hydrate todos => (h, todos)
  | Add txt =>
      if decide (trim txt = "") then (h, state)
      else
        let '(h1, q) :=
          alloc h {| id := randomUUID env; text := trim txt;
                     completed := false; createdAt := Finite (now env) |} in
        (h1, q :: state)
  | Toggle i => map_toggle h i state
  | Remove i => (h, filter (holds_at (λ t, id t ≠ i) h) state)
  | ClearCompleted => (h, filter (holds_at (λ t, completed t = false) h) state)
  end.

(** The action an action over addresses denotes. *)
Definition read_action (h : heap) (a : ActionOf ref) : Action :=
  match a with
  | Add txt => Add txt
  | Toggle i => Toggle i
  | Remove i => Remove i
  | ClearCompleted => ClearCompleted
  | Hydrate todos => Hydrate (read h todos)
  end.

(** ** Runs of the store *)

(** What the reducer leaves to its caller for identifiers to stay
    distinct: [hydrate] is handed records with distinct identifiers, and
    the identifier drawn for a non-blank [add] is not in the collection. *)
Definition step_ok (C : list Todo) (env : Env) (a : Action) : Prop :=
  match a with
  | Hydrate todos => NoDup (id <$> todos)
  | Add txt => trim txt = "" ∨ randomUUID env ∉ id <$> C
  | _ => True
  end.

Inductive guarded : list Todo → Prop :=
| guarded_init : guarded []
| guarded_step C env a :
    guarded C → step_ok C env a → guarded (todosReducer env C a).

(** ** JavaScript values

    What [JSON.parse] returns and what [typeof] and [x?.k] inspect.
    [undefined] is the absence of a value ([None]). *)

Unset Elimination Schemes.
Inductive JSValue : Type :=
| JSNull
| JSBoolean (b : bool)
| JSNumber (n : number)
| JSString (s : string)
| JSArray (items : list JSValue)
| JSObject (props : list (string * JSValue)).
Set Elimination Schemes.

Inductive TypeName : Type :=
| ty_undefined | ty_object | ty_boolean | ty_number | ty_string.

#[global] Instance TypeName_eq_dec : EqDecision TypeName.
Proof. solve_decision. Defined.

(** [typeof v] *)
Definition typeof (v : option JSValue) : TypeName :=
  match v with
  | None => ty_undefined
  | Some JSNull | Some (JSArray _) | Some (JSObject _) => ty_object
  | Some (JSBoolean _) => ty_boolean
  | Some (JSNumber _) => ty_number
  | Some (JSString _) => ty_string
  end.

Fixpoint own_property (props : list (string * JSValue)) (k : string)
  : option JSValue :=
  match props with
  | [] => None
  | (k', v) :: rest => if decide (k' = k) then Some v else own_property rest k
  end.

(** [x?.k], for the four names the guard of [loadTodos] reads: none of
    them is a property of [null], a boolean, a number, a string or an
    array, so the read is [undefined] unless [x] is an object that has the
    property. *)
Definition get_opt (x : JSValue) (k : string) : option JSValue :=
  match x with
  | JSObject props => own_property props k
  | _ => None
  end.

(** The guard of [loadTodos]:
    [typeof x?.id === "string" && typeof x?.text === "string" &&
     typeof x?.completed === "boolean" && typeof x?.createdAt === "number"] *)
Definition is_Todo (x : JSValue) : bool :=
  bool_decide (typeof (get_opt x "id") = ty_string)
  && bool_decide (typeof (get_opt x "text") = ty_string)
  && bool_decide (typeof (get_opt x "completed") = ty_boolean)
  && bool_decide (typeof (get_opt x "createdAt") = ty_number).

(** The record a value is read as once the guard has narrowed it to
    [Todo]: its four declared fields. *)
Definition as_Todo (x : JSValue) : option Todo :=
  match get_opt x "id", get_opt x "text",
        get_opt x "completed", get_opt x "createdAt" with
  | Some (JSString i), Some (JSString t), Some (JSBoolean c), Some (JSNumber n) =>
      Some {| id := i; text := t; completed := c; createdAt := n |}
  | _, _, _, _ => None
  end.

(** The object a [Todo] is: its four own properties, in the order in
    which the object literal of the reducer creates them (the spread in
    [toggle] keeps that order). *)
Definition Todo_object (t : Todo) : JSValue :=
  JSObject [("id", JSString (id t)); ("text", JSString (text t));
            ("completed", JSBoolean (completed t));
            ("createdAt", JSNumber (createdAt t))].

Definition is_finite (n : number) : bool :=
  match n with Finite _ => true | _ => false end.

(** What a value becomes on its way through JSON text: a number that is
    not finite is serialised as [null]. *)
Fixpoint json_image (v : JSValue) : JSValue :=
  match v with
  | JSNumber n => if is_finite n then v else JSNull
  | JSArray items => JSArray (json_image <$> items)
  | JSObject props => JSObject ((λ kv, (kv.1, json_image kv.2)) <$> props)
  | _ => v
  end.

(** Objects have each property once. *)
Fixpoint well_formed (v : JSValue) : Prop :=
  match v with
  | JSArray items => foldr (λ x P, well_formed x ∧ P) True items
  | JSObject props =>
      NoDup (fst <$> props) ∧ foldr (λ kv P, well_formed kv.2 ∧ P) True props
  | _ => True
  end.

(** ** The platform's JSON object, as the adapter uses it

    [parse] gives [None] where [JSON.parse] throws a [SyntaxError]. *)
Record JSONCodec : Type := mkCodec {
  parse : string → option JSValue;
  stringify : JSValue → string;
}.

(** What the adapter relies on: text written by [stringify] is read back
    by [parse] as the same value, up to [json_image]; the empty text is
    not JSON. *)
Record lawful (J : JSONCodec) : Prop := mkLawful {
  parse_stringify :
    ∀ v, well_formed v → parse J (stringify J v) = Some (json_image v);
  parse_empty : parse J "" = None;
}.

(** ** Storage helpers *)

(** [localStorage]: a map from keys to strings. *)
Abbreviation Storage := (gmap string string).

Definition getItem (st : Storage) (k : string) : option string := st !! k.
Definition setItem (st : Storage) (k v : string) : Storage := <[k := v]> st.

Definition STORAGE_KEY : string := "ts_todo_app_v1".

(** The [try] block of [loadTodos]; [None] is an exception thrown inside
    it. *)
Definition loadTodos_try (J : JSONCodec) (st : Storage) : option (list Todo) :=
  match getItem st STORAGE_KEY with
  | None => Some []
  | Some raw =>
      if decide (raw = "") then Some []
      else
        parsed ← parse J raw;
        match parsed with
        | JSArray items => Some (omap as_Todo (filter (λ x, is_Todo x) items))
        | _ => Some []
        end
  end.

(** [function loadTodos(): Todo[]], with [catch { return []; }] *)
Definition loadTodos (J : JSONCodec) (st : Storage) : list Todo :=
  match loadTodos_try J st with
  | Some todos => todos
  | None => []
  end.

(** [function saveTodos(todos: Todo[])] *)
Definition saveTodos (J : JSONCodec) (st : Storage) (todos : list Todo) : Storage :=
  setItem st STORAGE_KEY (stringify J (JSArray (Todo_object <$> todos))).

(** ** A reference JSON codec

    [JSON.stringify] and [JSON.parse] of ECMAScript on the values above.
    Two limits follow from the conventions at the head of the file: a
    number literal is read when it is an integer literal (one with a
    fraction or an exponent is reported as [None]), and a [\uXXXX] escape
    is read when it denotes a code unit below U+0100. *)
Module JSON.

Definition dquote : ascii := "034"%char.
Definition backslash : ascii := "\"%char.

Definition hex_digit (n : N) : ascii :=
  if (n <? 10)%N then ascii_of_N (48 + n) else ascii_of_N (87 + n).

Definition hex_value (c : ascii) : option N :=
  let n := N_of_ascii c in
  if ((48 <=? n) && (n <=? 57))%N then Some (n - 48)%N
  else if ((97 <=? n) && (n <=? 102))%N then Some (n - 87)%N
  else if ((65 <=? n) && (n <=? 70))%N then Some (n - 55)%N
  else None.

(** QuoteJSONString, one code unit. *)
Definition escape (c : ascii) : string :=
  let n := N_of_ascii c in
  if (n =? 8)%N then "\b"
  else if (n =? 9)%N then "\t"
  else if (n =? 10)%N then "\n"
  else if (n =? 12)%N then "\f"
  else if (n =? 13)%N then "\r"
  else if (n =? 34)%N then String backslash (String dquote "")
  else if (n =? 92)%N then "\\"
  else if (n <? 32)%N then
    "\u00" +:+ String (hex_digit (n / 16)) (String (hex_digit (n mod 16)) "")
  else String c "".

Fixpoint quote_body (s : string) : string :=
  match s with
  | EmptyString => ""
  | String c s' => escape c +:+ quote_body s'
  end.

Definition quote (s : string) : string :=
  String dquote (quote_body s +:+ String dquote "").

(** Number::toString on an integer: its decimal digits. *)
Definition print_Z (z : Z) : string := NilEmpty.string_of_int (Z.to_int z).

Fixpoint stringify (v : JSValue) : string :=
  match v with
  | JSNull => "null"
  | JSBoolean b => if b then "true" else "false"
  | JSNumber (Finite z) => print_Z z
  | JSNumber _ => "null"
  | JSString s => quote s
  | JSArray items => "[" +:+ String.concat "," (stringify <$> items) +:+ "]"
  | JSObject props =>
      "{" +:+ String.concat ","
               ((λ kv, quote kv.1 +:+ ":" +:+ stringify kv.2) <$> props) +:+ "}"
  end.

(** JSON white space: TAB, LF, CR, SPACE. *)
Definition is_json_ws (c : ascii) : bool :=
  let n := N_of_ascii c in
  (n =? 9)%N || (n =? 10)%N || (n =? 13)%N || (n =? 32)%N.

Fixpoint skip_ws (s : string) : string :=
  match s with
  | EmptyString => ""
  | String c s' => if is_json_ws c then skip_ws s' else s
  end.

Fixpoint strip_prefix (p s : string) : option string :=
  match p, s with
  | EmptyString, _ => Some s
  | String a p', String b s' => if Ascii.eqb a b then strip_prefix p' s' else None
  | String _ _, EmptyString => None
  end.

(** The characters of a string literal after its opening quote, up to and
    including the closing quote. *)
Fixpoint parse_string_body (s : string) : option (string * string) :=
  match s with
  | EmptyString => None
  | String c s1 =>
      if Ascii.eqb c dquote then Some ("", s1)
      else if Ascii.eqb c backslash then
        match s1 with
        | EmptyString => None
        | String e s2 =>
            let simple (d : ascii) :=
              '(str, rest) ← parse_string_body s2; Some (String d str, rest) in
            if Ascii.eqb e dquote then simple dquote
            else if Ascii.eqb e backslash then simple backslash
            else if Ascii.eqb e "/" then simple "/"%char
            else if Ascii.eqb e "b" then simple (ascii_of_N 8)
            else if Ascii.eqb e "f" then simple (ascii_of_N 12)
            else if Ascii.eqb e "n" then simple (ascii_of_N 10)
            else if Ascii.eqb e "r" then simple (ascii_of_N 13)
            else if Ascii.eqb e "t" then simple (ascii_of_N 9)
            else if Ascii.eqb e "u" then
              match s2 with
              | String h1 (String h2 (String h3 (String h4 s3))) =>
                  match hex_value h1, hex_value h2, hex_value h3, hex_value h4 with
                  | Some a, Some b, Some c', Some d =>
                      let code := (((a * 16 + b) * 16 + c') * 16 + d)%N in
                      if (code <? 256)%N then
                        '(str, rest) ← parse_string_body s3;
                        Some (String (ascii_of_N code) str, rest)
                      else None
                  | _, _, _, _ => None
                  end
              | _ => None
              end
            else None
        end
      else if (N_of_ascii c <? 32)%N then None
      else '(str, rest) ← parse_string_body s1; Some (String c str, rest)
  end.

Definition digit_of (c : ascii) : option (Decimal.uint → Decimal.uint) :=
  let n := N_of_ascii c in
  if (n =? 48)%N then Some Decimal.D0
  else if (n =? 49)%N then Some Decimal.D1
  else if (n =? 50)%N then Some Decimal.D2
  else if (n =? 51)%N then Some Decimal.D3
  else if (n =? 52)%N then Some Decimal.D4
  else if (n =? 53)%N then Some Decimal.D5
  else if (n =? 54)%N then Some Decimal.D6
  else if (n =? 55)%N then Some Decimal.D7
  else if (n =? 56)%N then Some Decimal.D8
  else if (n =? 57)%N then Some Decimal.D9
  else None.

Fixpoint parse_uint (s : string) : Decimal.uint * string :=
  match s with
  | EmptyString => (Decimal.Nil, "")
  | String c s' =>
      match digit_of c with
      | Some d => let '(u, rest) := parse_uint s' in (d u, rest)
      | None => (Decimal.Nil, s)
      end
  end.

(** After the sign: [0], or a non-zero digit and further digits, not
    followed by a fraction or an exponent. *)
Definition parse_unsigned (negative : bool) (s : string)
  : option (number * string) :=
  let '(u, rest) := parse_uint s in
  let z := Z.of_int (if negative then Decimal.Neg u else Decimal.Pos u) in
  let integer :=
    match rest with
    | String c _ =>
        if Ascii.eqb c "." || Ascii.eqb c "e" || Ascii.eqb c "E" then None
        else Some (Finite z, rest)
    | EmptyString => Some (Finite z, rest)
    end in
  match u with
  | Decimal.Nil => None
  | Decimal.D0 Decimal.Nil => integer
  | Decimal.D0 _ => None
  | _ => integer
  end.

Definition parse_number (s : string) : option (number * string) :=
  match s with
  | String c s' =>
      if Ascii.eqb c "-" then parse_unsigned true s' else parse_unsigned false s
  | EmptyString => None
  end.

(** A property written twice keeps its place and takes the later value. *)
Fixpoint set_property (props : list (string * JSValue)) (k : string) (v : JSValue)
  : list (string * JSValue) :=
  match props with
  | [] => [(k, v)]
  | (k', v') :: rest =>
      if decide (k' = k) then (k, v) :: rest
      else (k', v') :: set_property rest k v
  end.

Definition make_object (members : list (string * JSValue)) : JSValue :=
  JSObject (foldl (λ props kv, set_property props kv.1 kv.2) [] members).

Fixpoint parse_value (fuel : nat) (s : string) {struct fuel}
  : option (JSValue * string) :=
  match fuel with
  | O => None
  | S fuel =>
      match skip_ws s with
      | EmptyString => None
      | String c rest =>
          if Ascii.eqb c "n" then
            rest' ← strip_prefix "ull" rest; Some (JSNull, rest')
          else if Ascii.eqb c "t" then
            rest' ← strip_prefix "rue" rest; Some (JSBoolean true, rest')
          else if Ascii.eqb c "f" then
            rest' ← strip_prefix "alse" rest; Some (JSBoolean false, rest')
          else if Ascii.eqb c dquote then
            '(str, rest') ← parse_string_body rest; Some (JSString str, rest')
          else if Ascii.eqb c "[" then
            match skip_ws rest with
            | EmptyString => None
            | String c' rest' =>
                if Ascii.eqb c' "]" then Some (JSArray [], rest')
                else '(vs, r) ← parse_elements fuel rest; Some (JSArray vs, r)
            end
          else if Ascii.eqb c "{" then
            match skip_ws rest with
            | EmptyString => None
            | String c' rest' =>
                if Ascii.eqb c' "}" then Some (JSObject [], rest')
                else '(ms, r) ← parse_members fuel rest; Some (make_object ms, r)
            end
          else
            '(n, rest') ← parse_number (String c rest); Some (JSNumber n, rest')
      end
  end
with parse_elements (fuel : nat) (s : string) {struct fuel}
  : option (list JSValue * string) :=
  match fuel with
  | O => None
  | S fuel =>
      '(v, rest) ← parse_value fuel s;
      match skip_ws rest with
      | EmptyString => None
      | String c rest' =>
          if Ascii.eqb c "," then
            '(vs, r) ← parse_elements fuel rest'; Some (v :: vs, r)
          else if Ascii.eqb c "]" then Some ([v], rest')
          else None
      end
  end
with parse_members (fuel : nat) (s : string) {struct fuel}
  : option (list (string * JSValue) * string) :=
  match fuel with
  | O => None
  | S fuel =>
      match skip_ws s with
      | EmptyString => None
      | String q s1 =>
          if Ascii.eqb q dquote then
            '(k, s2) ← parse_string_body s1;
            match skip_ws s2 with
            | EmptyString => None
            | String colon s3 =>
                if Ascii.eqb colon ":" then
                  '(v, s4) ← parse_value fuel s3;
                  match skip_ws s4 with
                  | EmptyString => None
                  | String c s5 =>
                      if Ascii.eqb c "," then
                        '(ms, r) ← parse_members fuel s5; Some ((k, v) :: ms, r)
                      else if Ascii.eqb c "}" then Some ([(k, v)], s5)
                      else None
                  end
                else None
            end
          else None
      end
  end.

(** [JSON.parse]: one value, then nothing but white space. *)
Definition parse (s : string) : option JSValue :=
  '(v, rest) ← parse_value (S (String.length s)) s;
  if decide (skip_ws rest = "") then Some v else None.

End JSON.

(** The codec of the platform. *)
Definition ecma : JSONCodec :=
  {| parse := JSON.parse; stringify := JSON.stringify |}.

(** ** Collections the application can hold

    The collection starts empty; [hydrate] is dispatched with what
    [loadTodos] returns, every other action with whatever the user
    interface sends. *)
Inductive reachable (J : JSONCodec) : list Todo → Prop :=
| reachable_init : reachable J []
| reachable_hydrate C env st :
    reachable J C →
    reachable J (todosReducer env C (Hydrate (loadTodos J st)))
| reachable_dispatch C env a :
    reachable J C → (∀ todos, a ≠ Hydrate todos) →
    reachable J (todosReducer env C a).

(** ** Sample data *)

Definition uuid_1 : string := "1b9d6bcd-bbfd-4b2d-9b5d-ab8dfbbd4bed".
Definition uuid_2 : string := "6ec0bd7f-11c0-43da-975e-2a8ad9ebae0b".

Definition buy_milk : Todo :=
  {| id := uuid_1; text := "Buy milk"; completed := false;
     createdAt := Finite 1700000000000 |}.

Definition walk_dog : Todo :=
  {| id := uuid_2; text := "Walk dog"; completed := true;
     createdAt := Finite 1700000000500 |}.

(** ** Notions used in the statements and proofs *)

(** How [map] with the toggling callback relates the addresses of its
    argument and of its result: an address whose record does not match is
    kept, one whose record matches gives way to an address that was not
    allocated before. *)
Definition toggled_to (h0 : heap) (i : string) (p q : ref) : Prop :=
  (q = p ∧ ¬ holds_at (λ t, id t = i) h0 p ∧ (q < length h0)%nat)
  ∨ (holds_at (λ t, id t = i) h0 p ∧ (length h0 ≤ q)%nat).

(** A value shows a record when its four properties are the record's
    fields. *)
Definition shows (x : JSValue) (t : Todo) : Prop :=
  get_opt x "id" = Some (JSString (id t))
  ∧ get_opt x "text" = Some (JSString (text t))
  ∧ get_opt x "completed" = Some (JSBoolean (completed t))
  ∧ get_opt x "createdAt" = Some (JSNumber (createdAt t)).

Definition not_a_number_todo : Todo :=
  {| id := uuid_1; text := "Buy milk"; completed := false; createdAt := NaN |}.

(** An object without [completed] and [createdAt]. *)
Definition malformed : JSValue :=
  JSObject [("id", JSString uuid_2); ("text", JSString "Walk dog")].

(** A slot holding an array of one well-formed and one malformed record. *)
Definition mixed_storage : Storage :=
  {[ STORAGE_KEY := JSON.stringify (JSArray [Todo_object buy_milk; malformed]) ]}.

(** A slot holding two records with one identifier. *)
Definition twin_storage : Storage :=
  {[ STORAGE_KEY :=
       JSON.stringify
         (JSArray [Todo_object buy_milk; Todo_object (flip_completed buy_milk)]) ]}.

(** *** Reading back the text of the reference codec *)

Definition no_digit_ahead (rest : string) : Prop :=
  match rest with
  | EmptyString => True
  | String c _ => JSON.digit_of c = None
  end.

(** What may follow a value inside an array or an object, or at the end
    of the text. *)
Definition follow_ok (rest : string) : Prop :=
  match rest with
  | EmptyString => True
  | String c _ => c = ","%char ∨ c = "]"%char ∨ c = "}"%char
  end.

Definition canonical (d : Decimal.uint) : Prop :=
  d ≠ Decimal.Nil ∧ (∀ d', d = Decimal.D0 d' → d' = Decimal.Nil).

(** The recursion depth [JSON.parse_value] needs on the text of a value. *)
Fixpoint fuel_for (v : JSValue) : nat :=
  match v with
  | JSArray items => S (foldr (λ x n, S (fuel_for x `max` n)) 0%nat items)
  | JSObject props => S (foldr (λ kv n, S (fuel_for kv.2 `max` n)) 0%nat props)
  | _ => 1%nat
  end.

Definition number_head (c : ascii) : Prop :=
  c = "-"%char ∨ is_Some (JSON.digit_of c).

Definition reads_back (v : JSValue) : Prop :=
  ∀ fuel rest, (fuel_for v ≤ fuel)%nat → follow_ok rest →
    JSON.parse_value fuel (JSON.stringify v +:+ rest) = Some (json_image v, rest).

(** ** The component [TodoApp]

    The pure values the component derives from its state, its event
    handlers and its two effects. *)

(** [export enum Filter] *)
Inductive Filter : Type := All | Active | Completed.

(** [const filtered = useMemo(() => { switch (filter) ... }, [todos, filter])] *)
Definition filtered (todos : list Todo) (flt : Filter) : list Todo :=
  match flt with
  | Active => filter (λ t, completed t = false) todos
  | Completed => filter (λ t, completed t = true) todos
  | All => todos
  end.

(** [const remaining = useMemo(() => todos.filter((t) => !t.completed).length, [todos])] *)
Definition remaining (todos : list Todo) : nat :=
  length (filter (λ t, completed t = false) todos).

(** What the component holds and touches: the state of [useReducer], the
    state of [useState], the value of the input element behind [inputRef]
    ([None] while [inputRef.current] is [null]), and [localStorage]. *)
Record App : Type := mkApp {
  app_todos : list Todo;
  app_filter : Filter;
  app_input : option string;
  app_storage : Storage;
}.

(** The reducer returns [state] itself, the very array it was given, on
    an [add] of blank text only; [map], [filter] and [hydrate] give another
    array.  The effect with dependency [[todos]] runs when the array is
    another one. *)
Definition returns_state (a : Action) : bool :=
  match a with
  | Add txt => bool_decide (trim txt = "")
  | _ => false
  end.

(** [dispatch(action)], followed by the effect
    [useEffect(() => { saveTodos(todos); }, [todos])]. *)
Definition dispatch (J : JSONCodec) (env : Env) (app : App) (a : Action) : App :=
  let todos' := todosReducer env (app_todos app) a in
  {| app_todos := todos';
     app_filter := app_filter app;
     app_input := app_input app;
     app_storage :=
       if returns_state a then app_storage app
       else saveTodos J (app_storage app) todos' |}.

(** Mounting the component.  The first render has [todos = []] and
    [filter = Filter.All]; its effects run in the order of the source:
    the first reads the storage and dispatches [hydrate], the second
    saves the [todos] of that render, the empty array.  The render that
    follows has the hydrated array, and the second effect saves it. *)
Definition mount (J : JSONCodec) (env : Env) (st : Storage) : App :=
  let loaded := loadTodos J st in
  let st1 := saveTodos J st [] in
  dispatch J env
    {| app_todos := []; app_filter := All; app_input := Some "";
       app_storage := st1 |}
    (Hydrate loaded).

(** [function handleSubmit(e)]: [inputRef.current?.value ?? ""] is
    dispatched as an [add], and the input, when there is one, is
    emptied. *)
Definition handleSubmit (J : JSONCodec) (env : Env) (app : App) : App :=
  let value := default "" (app_input app) in
  let app' := dispatch J env app (Add value) in
  {| app_todos := app_todos app';
     app_filter := app_filter app';
     app_input := match app_input app with Some _ => Some "" | None => None end;
     app_storage := app_storage app' |}.

(** What the user does: types into the input, submits the form, changes
    the checkbox or presses the delete button of an item, presses "Clear
    completed", presses a filter button. *)
Inductive Event : Type :=
| Typing (s : string)
| Submit (env : Env)
| ChangeCheckbox (env : Env) (i : string)
| ClickDelete (env : Env) (i : string)
| ClickClearCompleted (env : Env)
| ClickFilter (f : Filter).

Definition handle (J : JSONCodec) (app : App) (ev : Event) : App :=
  match ev with
  | Typing s =>
      {| app_todos := app_todos app; app_filter := app_filter app;
         app_input := match app_input app with Some _ => Some s | None => None end;
         app_storage := app_storage app |}
  | Submit env => handleSubmit J env app
  | ChangeCheckbox env i => dispatch J env app (Toggle i)
  | ClickDelete env i => dispatch J env app (Remove i)
  | ClickClearCompleted env => dispatch J env app ClearCompleted
  | ClickFilter f =>
      {| app_todos := app_todos app; app_filter := f;
         app_input := app_input app; app_storage := app_storage app |}
  end.

(** A session: the events handled one after the other. *)
Definition run (J : JSONCodec) (app : App) (events : list Event) : App :=
  foldl (handle J) app events.

(** The slot holds the serialisation of the collection on screen. *)
Definition synced (J : JSONCodec) (app : App) : Prop :=
  getItem (app_storage app) STORAGE_KEY
  = Some (stringify J (JSArray (Todo_object <$> app_todos app))).

(** A text as [add] admits it: not empty, and its own trimmed form. *)
Definition admitted_text (s : string) : Prop := s ≠ "" ∧ trim s = s.

(** * Properties of the reducer *)

Lemma trim_blank_samples : trim "" = "" ∧ trim "   " = "".
Proof. split; reflexivity. Qed.

Lemma flip_completed_involutive (t : Todo) :
  flip_completed (flip_completed t) = t.
Proof. destruct t as [i x c n]. unfold flip_completed. simpl. by rewrite negb_involutive. Qed.

Lemma toggle_unknown_id (C : list Todo) (i : string) :
  i ∉ id <$> C →
  (λ t, if decide (id t = i) then flip_completed t else t) <$> C = C.
Proof.
  induction C as [|t C IH]; intros Hi; [done|].
  rewrite fmap_cons in Hi. apply not_elem_of_cons in Hi as [Hne Hi].
  rewrite fmap_cons. rewrite decide_False by done. by rewrite IH.
Qed.

Lemma remove_unknown_id (C : list Todo) (i : string) :
  i ∉ id <$> C → filter (λ t, id t ≠ i) C = C.
Proof.
  induction C as [|t C IH]; intros Hi; [done|].
  rewrite fmap_cons in Hi. apply not_elem_of_cons in Hi as [Hne Hi].
  rewrite filter_cons_True by done. by rewrite IH.
Qed.

(** C1 (as amended): for every collection [C] and every text [t] whose
    trimmed form is non-empty, [apply(C, Add(t))] has length [len(C)+1];
    its first element is a new record with text [trim(t)], completed =
    false, and the identifier drawn from [crypto.randomUUID()], which is an
    identifier of [C] exactly when the drawn value already is one; the
    remaining elements are the records of [C] unchanged and in order. *)
Theorem add_prepends_drawn_record (env : Env) (C : list Todo) (t : string) :
  trim t ≠ "" →
  ∃ r, todosReducer env C (Add t) = r :: C
    ∧ length (todosReducer env C (Add t)) = S (length C)
    ∧ text r = trim t
    ∧ completed r = false
    ∧ id r = randomUUID env
    ∧ createdAt r = Finite (now env)
    ∧ (id r ∈ id <$> C ↔ randomUUID env ∈ id <$> C).
Proof.
  intros Ht. unfold todosReducer. rewrite decide_False by done.
  eexists. split; [reflexivity|]. simpl. repeat split; done.
Qed.

Lemma add_prepends_drawn_record_witness :
  ∃ r, todosReducer (mkEnv uuid_2 1700000000500) [buy_milk] (Add " Walk dog ")
       = r :: [buy_milk]
    ∧ length (todosReducer (mkEnv uuid_2 1700000000500) [buy_milk] (Add " Walk dog "))
      = S (length [buy_milk])
    ∧ text r = trim " Walk dog "
    ∧ completed r = false
    ∧ id r = randomUUID (mkEnv uuid_2 1700000000500)
    ∧ createdAt r = Finite (now (mkEnv uuid_2 1700000000500))
    ∧ (id r ∈ id <$> [buy_milk]
       ↔ randomUUID (mkEnv uuid_2 1700000000500) ∈ id <$> [buy_milk]).
Proof.
  apply (add_prepends_drawn_record (mkEnv uuid_2 1700000000500) [buy_milk] " Walk dog ").
  vm_compute. discriminate.
Defined.

(** C1, as stated, fails where the drawn identifier is already in the
    collection: the reducer does not compare it with the identifiers of
    [C]. *)
Lemma add_identifier_can_repeat :
  trim "Walk dog" ≠ ""
  ∧ ¬ (∀ r, head (todosReducer (mkEnv uuid_1 1700000000500) [buy_milk] (Add "Walk dog"))
            = Some r → id r ∉ id <$> [buy_milk]).
Proof.
  split; [vm_compute; discriminate|].
  intros H. apply (H _ eq_refl). vm_compute. left.
Qed.

(** C2: for every collection [C] and every id present in [C],
    [apply(C, Toggle(id))] has the same length as [C]; a record with that
    id appears, at its position, with its completed flag inverted and its
    id, text and createdAt unchanged; every other record of [C] is
    unchanged, at its position. *)
Theorem toggle_flips_matching_record (env : Env) (C : list Todo) (i : string) :
  i ∈ id <$> C →
  length (todosReducer env C (Toggle i)) = length C
  ∧ (∃ k t t', C !! k = Some t ∧ todosReducer env C (Toggle i) !! k = Some t'
       ∧ id t = i ∧ completed t' = negb (completed t))
  ∧ (∀ k t, C !! k = Some t →
       ∃ t', todosReducer env C (Toggle i) !! k = Some t'
         ∧ id t' = id t ∧ text t' = text t ∧ createdAt t' = createdAt t
         ∧ (id t = i → completed t' = negb (completed t))
         ∧ (id t ≠ i → t' = t)).
Proof.
  intros Hi. unfold todosReducer. split; [by rewrite length_fmap|]. split.
  - apply list_elem_of_fmap in Hi as (t & -> & Ht).
    apply list_elem_of_lookup in Ht as [k Hk].
    exists k, t, (flip_completed t). split; [done|].
    rewrite list_lookup_fmap, Hk. simpl. by rewrite decide_True.
  - intros k t Hk. rewrite list_lookup_fmap, Hk. simpl.
    destruct (decide (id t = i)) as [Heq|Hne].
    + exists (flip_completed t). by repeat split.
    + exists t. by repeat split.
Qed.

Lemma toggle_flips_matching_record_witness :
  length (todosReducer (mkEnv uuid_2 0) [walk_dog; buy_milk] (Toggle uuid_1))
  = length [walk_dog; buy_milk]
  ∧ (∃ k t t', [walk_dog; buy_milk] !! k = Some t
       ∧ todosReducer (mkEnv uuid_2 0) [walk_dog; buy_milk] (Toggle uuid_1) !! k = Some t'
       ∧ id t = uuid_1 ∧ completed t' = negb (completed t))
  ∧ (∀ k t, [walk_dog; buy_milk] !! k = Some t →
       ∃ t', todosReducer (mkEnv uuid_2 0) [walk_dog; buy_milk] (Toggle uuid_1) !! k = Some t'
         ∧ id t' = id t ∧ text t' = text t ∧ createdAt t' = createdAt t
         ∧ (id t = uuid_1 → completed t' = negb (completed t))
         ∧ (id t ≠ uuid_1 → t' = t)).
Proof.
  apply (toggle_flips_matching_record (mkEnv uuid_2 0) [walk_dog; buy_milk] uuid_1).
  simpl. right. left.
Defined.

Lemma filter_sublist_mono {A : Type} (P : A → Prop) `{!∀ x, Decision (P x)}
  (l k : list A) :
  l `sublist_of` k → filter P l `sublist_of` filter P k.
Proof.
  induction 1 as [|x l k _ IH|x l k _ IH]; [done| |].
  - rewrite !filter_cons. destruct (decide (P x)); [by constructor|done].
  - rewrite filter_cons. destruct (decide (P x)); [by constructor|done].
Qed.

Lemma filter_all {A : Type} (P : A → Prop) `{!∀ x, Decision (P x)} (l : list A) :
  Forall P l → filter P l = l.
Proof.
  induction 1 as [|x l Hx _ IH]; [done|].
  rewrite filter_cons_True by done. by rewrite IH.
Qed.

(** C3: for every collection [C], [apply(C, ClearCompleted())] contains
    exactly those records of [C] whose completed flag is false, in the
    same relative order as in [C], each unchanged: it is a subsequence of
    [C], its records are those of [C] that are not completed, and every
    subsequence of [C] made of records that are not completed is a
    subsequence of it. *)
Theorem clearCompleted_keeps_active (env : Env) (C : list Todo) :
  todosReducer env C ClearCompleted `sublist_of` C
  ∧ (∀ t, t ∈ todosReducer env C ClearCompleted ↔ t ∈ C ∧ completed t = false)
  ∧ (∀ L, L `sublist_of` C → Forall (λ t, completed t = false) L →
          L `sublist_of` todosReducer env C ClearCompleted).
Proof.
  unfold todosReducer. split; [apply sublist_filter|]. split.
  - intros t. rewrite list_elem_of_filter. tauto.
  - intros L HL Hact.
    rewrite <- (filter_all (λ t, completed t = false) L Hact).
    by apply filter_sublist_mono.
Qed.

Lemma clearCompleted_keeps_active_witness :
  [buy_milk] `sublist_of` todosReducer (mkEnv uuid_2 0) [walk_dog; buy_milk] ClearCompleted.
Proof.
  apply (clearCompleted_keeps_active (mkEnv uuid_2 0) [walk_dog; buy_milk]).
  - apply sublist_cons, sublist_skip, sublist_nil.
  - repeat constructor.
Defined.

(** C4: invalid-target intents are silent no-ops: for every collection
    [C], [apply(C, Add(t)) = C] whenever [trim(t)] is empty (so for the
    empty text and for three spaces), and for every id not present in [C],
    [apply(C, Toggle(id)) = C] and [apply(C, Remove(id)) = C]. *)
Theorem invalid_target_is_noop (env : Env) (C : list Todo) (t i : string) :
  trim t = "" → i ∉ id <$> C →
  todosReducer env C (Add t) = C
  ∧ todosReducer env C (Add "") = C
  ∧ todosReducer env C (Add "   ") = C
  ∧ todosReducer env C (Toggle i) = C
  ∧ todosReducer env C (Remove i) = C.
Proof.
  intros Ht Hi. unfold todosReducer.
  rewrite (decide_True (P := trim t = "")) by done.
  split; [done|].
  split; [by rewrite decide_True by reflexivity|].
  split; [by rewrite decide_True by reflexivity|].
  split; [by apply toggle_unknown_id|by apply remove_unknown_id].
Qed.

Lemma invalid_target_is_noop_witness :
  todosReducer (mkEnv uuid_1 0) [walk_dog] (Add (String (ascii_of_N 9) " ")) = [walk_dog]
  ∧ todosReducer (mkEnv uuid_1 0) [walk_dog] (Add "") = [walk_dog]
  ∧ todosReducer (mkEnv uuid_1 0) [walk_dog] (Add "   ") = [walk_dog]
  ∧ todosReducer (mkEnv uuid_1 0) [walk_dog] (Toggle uuid_1) = [walk_dog]
  ∧ todosReducer (mkEnv uuid_1 0) [walk_dog] (Remove uuid_1) = [walk_dog].
Proof.
  apply (invalid_target_is_noop (mkEnv uuid_1 0) [walk_dog]
           (String (ascii_of_N 9) " ") uuid_1).
  - reflexivity.
  - vm_compute. intros H. apply list_elem_of_In in H. simpl in H.
    destruct H as [H|[]]. discriminate H.
Defined.

Lemma toggle_twice (C : list Todo) (i : string) :
  (λ t, if decide (id t = i) then flip_completed t else t)
    <$> ((λ t, if decide (id t = i) then flip_completed t else t) <$> C) = C.
Proof.
  rewrite <- list_fmap_compose. rewrite <- (list_fmap_id C) at 2.
  apply list_fmap_ext. intros _ t _. simpl.
  destruct (decide (id t = i)) as [Heq|Hne].
  - simpl. rewrite decide_True by done. apply flip_completed_involutive.
  - by rewrite decide_False.
Qed.

(** C9: Toggle is an involution: for every collection [C] whose
    identifiers are pairwise distinct and every id,
    [apply(apply(C, Toggle(id)), Toggle(id)) = C]. *)
Theorem toggle_involution (env env' : Env) (C : list Todo) (i : string) :
  NoDup (id <$> C) →
  todosReducer env' (todosReducer env C (Toggle i)) (Toggle i) = C.
Proof. intros _. apply toggle_twice. Qed.

Lemma toggle_involution_witness :
  todosReducer (mkEnv uuid_1 1)
    (todosReducer (mkEnv uuid_1 0) [walk_dog; buy_milk] (Toggle uuid_1))
    (Toggle uuid_1)
  = [walk_dog; buy_milk].
Proof.
  apply (toggle_involution (mkEnv uuid_1 0) (mkEnv uuid_1 1) [walk_dog; buy_milk] uuid_1).
  vm_compute. apply NoDup_cons. split.
  - intros H. apply list_elem_of_In in H. simpl in H. destruct H as [H|[]].
    discriminate H.
  - apply NoDup_singleton.
Defined.

(** The scenario of the specification: two additions, newest first, a
    toggle of the older record, then the removal of what is completed. *)
Lemma scenario_buy_milk_walk_dog :
  let C1 := todosReducer (mkEnv uuid_1 1700000000000) [] (Add "Buy milk") in
  let C2 := todosReducer (mkEnv uuid_2 1700000000500) C1 (Add "Walk dog") in
  let C3 := todosReducer (mkEnv uuid_1 0) C2 (Toggle uuid_1) in
  let C4 := todosReducer (mkEnv uuid_1 0) C3 ClearCompleted in
  (text <$> C2 = ["Walk dog"; "Buy milk"] ∧ completed <$> C2 = [false; false])
  ∧ completed <$> C3 = [false; true]
  ∧ C4 = [mkTodo uuid_2 "Walk dog" false (Finite 1700000000500)].
Proof. vm_compute. done. Qed.

(** * The object store *)

Lemma filter_ext_in {A : Type} (P Q : A → Prop)
  `{!∀ x, Decision (P x)} `{!∀ x, Decision (Q x)} (l : list A) :
  (∀ x, x ∈ l → (P x ↔ Q x)) → filter P l = filter Q l.
Proof.
  induction l as [|x l IH]; intros Hext; [done|].
  rewrite !filter_cons.
  assert (filter P l = filter Q l) as ->.
  { apply IH. intros y Hy. apply Hext. by right. }
  destruct (decide (P x)) as [HP|HP], (decide (Q x)) as [HQ|HQ]; try done.
  - exfalso. apply HQ, Hext; [left|done].
  - exfalso. apply HP, Hext; [left|done].
Qed.

Lemma filter_elem_of_self {A : Type} `{EqDecision A} (l k : list A) :
  l ⊆ k → filter (.∈ k) l = l.
Proof.
  intros Hsub. apply filter_all. apply Forall_forall. intros x Hx. by apply Hsub.
Qed.

Lemma filter_elem_of_filter {A : Type} `{EqDecision A} (P : A → Prop)
  `{!∀ x, Decision (P x)} (l : list A) :
  filter (.∈ filter P l) l = filter P l.
Proof.
  apply filter_ext_in. intros x Hx. rewrite list_elem_of_filter. tauto.
Qed.

Lemma read_cons_Some (h : heap) (p : ref) (state : list ref) (t : Todo) :
  h !! p = Some t → read h (p :: state) = t :: read h state.
Proof. intros H. simpl. by rewrite H. Qed.

Lemma read_extend (h h' : heap) (state : list ref) :
  h `prefix_of` h' → allocated h state → read h' state = read h state.
Proof.
  intros Hpre Hall. induction Hall as [|p state Hp _ IH]; [done|].
  simpl. rewrite IH. by rewrite (prefix_lookup_lt h h' p Hp Hpre).
Qed.

Lemma read_filter (P : Todo → Prop) `{!∀ t, Decision (P t)} (h : heap)
  (state : list ref) :
  read h (filter (holds_at P h) state) = filter P (read h state).
Proof.
  induction state as [|p state IH]; [done|].
  rewrite filter_cons. simpl.
  destruct (decide (holds_at P h p)) as [Hh|Hh]; unfold holds_at in Hh;
    destruct (h !! p) as [t|] eqn:Hp; simpl; rewrite ?Hp.
  - rewrite filter_cons_True by done. by rewrite IH.
  - done.
  - by rewrite filter_cons_False by done.
  - done.
Qed.

Lemma map_toggle_extends (i : string) (state : list ref) (h : heap) :
  h `prefix_of` (map_toggle h i state).1.
Proof.
  revert h. induction state as [|p state IH]; intros h; [done|].
  simpl. destruct (h !! p) as [t|].
  - destruct (decide (id t = i)).
    + unfold alloc. specialize (IH (h ++ [flip_completed t])).
      destruct (map_toggle (h ++ [flip_completed t]) i state) as [h2 rest'].
      simpl in *. etrans; [|exact IH]. by apply prefix_app_r.
    + specialize (IH h). by destruct (map_toggle h i state).
  - specialize (IH h). by destruct (map_toggle h i state).
Qed.

Lemma map_toggle_spec (h0 : heap) (i : string) (state : list ref) (h : heap) :
  h0 `prefix_of` h → allocated h0 state →
  Forall2 (toggled_to h0 i) state (map_toggle h i state).2
  ∧ read (map_toggle h i state).1 (map_toggle h i state).2
    = (λ t, if decide (id t = i) then flip_completed t else t) <$> read h0 state.
Proof.
  intros Hpre Hall. revert h Hpre.
  induction Hall as [|p state Hp Hall IH]; intros h Hpre; [done|].
  destruct (lookup_lt_is_Some_2 h0 p Hp) as [t Ht].
  pose proof (prefix_lookup_Some _ _ _ _ Ht Hpre) as Ht'.
  rewrite (read_cons_Some h0 p state t Ht), fmap_cons.
  simpl. rewrite Ht'. destruct (decide (id t = i)) as [Heq|Hne].
  - unfold alloc.
    assert (h0 `prefix_of` h ++ [flip_completed t]) as Hpre'.
    { etrans; [exact Hpre|]. by apply prefix_app_r. }
    destruct (IH _ Hpre') as [IH1 IH2].
    pose proof (map_toggle_extends i state (h ++ [flip_completed t])) as Hext.
    destruct (map_toggle (h ++ [flip_completed t]) i state) as [h2 rest'].
    simpl in *. split.
    + constructor; [|done]. right. split.
      * unfold holds_at. by rewrite Ht.
      * apply prefix_length in Hpre. lia.
    + assert (h2 !! length h = Some (flip_completed t)) as ->.
      { eapply prefix_lookup_Some; [|exact Hext]. by apply list_lookup_middle. }
      by rewrite IH2.
  - destruct (IH _ Hpre) as [IH1 IH2].
    pose proof (map_toggle_extends i state h) as Hext.
    destruct (map_toggle h i state) as [h2 rest'].
    simpl in *. split.
    + constructor; [|done]. left. split; [done|]. split; [|done].
      unfold holds_at. by rewrite Ht.
    + assert (h2 !! p = Some t) as ->.
      { eapply prefix_lookup_Some; [exact Ht'|exact Hext]. }
      by rewrite IH2.
Qed.

Lemma toggled_to_common_l (h0 : heap) (i : string) (state state' : list ref) :
  allocated h0 state → Forall2 (toggled_to h0 i) state state' →
  filter (.∈ state') state = filter (λ p, ¬ holds_at (λ t, id t = i) h0 p) state.
Proof.
  intros Hall HF. apply filter_ext_in. intros p Hp. split.
  - intros Hp'. destruct (proj1 (list_elem_of_lookup _ _) Hp') as [k Hk].
    destruct (Forall2_lookup_r _ _ _ _ _ HF Hk) as (p0 & Hk0 & [(-> & Hn & _)|[_ Hge]]).
    + done.
    + unfold allocated in Hall. rewrite Forall_forall in Hall.
      specialize (Hall p Hp). lia.
  - intros Hn. destruct (proj1 (list_elem_of_lookup _ _) Hp) as [k Hk].
    destruct (Forall2_lookup_l _ _ _ _ _ HF Hk) as (q & Hkq & [(-> & _ & _)|[Hm _]]).
    + by eapply list_elem_of_lookup_2.
    + done.
Qed.

Lemma toggled_to_common_r (h0 : heap) (i : string) (state state' : list ref) :
  allocated h0 state → Forall2 (toggled_to h0 i) state state' →
  filter (.∈ state) state' = filter (λ p, ¬ holds_at (λ t, id t = i) h0 p) state.
Proof.
  intros Hall HF.
  transitivity (filter (λ q, (q < length h0)%nat) state').
  - apply filter_ext_in. intros q Hq. split.
    + intros Hq'. unfold allocated in Hall. rewrite Forall_forall in Hall.
      by apply Hall.
    + intros Hlt. destruct (proj1 (list_elem_of_lookup _ _) Hq) as [k Hk].
      destruct (Forall2_lookup_r _ _ _ _ _ HF Hk) as (p0 & Hk0 & [(-> & _ & _)|[_ Hge]]).
      * by eapply list_elem_of_lookup_2.
      * lia.
  - clear Hall. induction HF as [|p q state state' HR _ IH]; [done|].
    rewrite !filter_cons, IH.
    destruct HR as [(-> & Hn & Hlt)|[Hm Hge]].
    + rewrite decide_True by done. by rewrite decide_True by done.
    + rewrite decide_False by lia. by rewrite decide_False by tauto.
Qed.

Lemma todosReducer_obj_extends (env : Env) (h : heap) (state : list ref)
  (a : ActionOf ref) :
  h `prefix_of` (todosReducer_obj env h state a).1.
Proof.
  destruct a as [txt|i|i| |todos]; simpl; try done.
  - destruct (decide (trim txt = "")); simpl; [done|by apply prefix_app_r].
  - apply map_toggle_extends.
Qed.

(** Reading the arrays of the object store gives the reducer on records. *)
Lemma todosReducer_obj_read (env : Env) (h : heap) (state : list ref)
  (a : ActionOf ref) :
  allocated h state →
  read (todosReducer_obj env h state a).1 (todosReducer_obj env h state a).2
  = todosReducer env (read h state) (read_action h a).
Proof.
  intros Hall. destruct a as [txt|i|i| |todos]; simpl.
  - destruct (decide (trim txt = "")); simpl; [done|].
    rewrite list_lookup_middle by done.
    by rewrite (read_extend h) by (by apply prefix_app_r || done).
  - by apply map_toggle_spec.
  - apply read_filter.
  - apply read_filter.
  - done.
Qed.

(** C7, as stated, fails on [add]: two applications to the same
    collection and the same intent give different collections when
    [crypto.randomUUID()] returns different values. *)
Lemma add_twice_differs :
  todosReducer (mkEnv uuid_1 1700000000000) [] (Add "Buy milk")
  ≠ todosReducer (mkEnv uuid_2 1700000000000) [] (Add "Buy milk").
Proof. vm_compute. discriminate. Qed.

(** C7 (as amended): every transition of the Store is a function of the
    previous collection, the intent and, for an Add of a non-blank text,
    the identifier and the time the platform returns.  Two applications
    to the same collection and the same intent produce equal collections
    for Hydrate, Toggle, Remove, ClearCompleted and an Add of a blank
    text, and for an Add of a non-blank text exactly when
    [crypto.randomUUID()] and [Date.now()] return the same values in
    both.  No transition changes an existing record in place: every
    record object that exists before the transition is the same
    afterwards, and the resulting array reads as the resulting
    collection. *)
Theorem transition_depends_on_its_inputs (env1 env2 : Env) (C : list Todo)
  (a : Action) (h : heap) (state : list ref) (b : ActionOf ref) :
  ((∀ t, a = Add t → trim t = "") →
     todosReducer env1 C a = todosReducer env2 C a)
  ∧ (∀ t, a = Add t → trim t ≠ "" →
       (todosReducer env1 C a = todosReducer env2 C a ↔ env1 = env2))
  ∧ (∀ p t, h !! p = Some t → (todosReducer_obj env1 h state b).1 !! p = Some t)
  ∧ (allocated h state →
       read (todosReducer_obj env1 h state b).1 (todosReducer_obj env1 h state b).2
       = todosReducer env1 (read h state) (read_action h b)).
Proof.
  split; [|split; [|split]].
  - intros Hblank. destruct a as [txt|i|i| |todos]; simpl; try done.
    assert (trim txt = "") as Hb by (by apply Hblank).
    by rewrite !decide_True by done.
  - intros t -> Ht. simpl. rewrite !decide_False by done. split.
    + intros Heq. destruct env1, env2. simpl in Heq. by simplify_eq.
    + by intros ->.
  - intros p t Hp. eapply prefix_lookup_Some; [exact Hp|].
    apply todosReducer_obj_extends.
  - apply todosReducer_obj_read.
Qed.

Lemma transition_depends_on_its_inputs_witness :
  (todosReducer (mkEnv uuid_1 0) [walk_dog] (Add "Buy milk")
   = todosReducer (mkEnv uuid_2 1) [walk_dog] (Add "Buy milk")
   ↔ mkEnv uuid_1 0 = mkEnv uuid_2 1)
  ∧ (todosReducer_obj (mkEnv uuid_1 0) [walk_dog] [0%nat] (Toggle uuid_2)).1 !! 0%nat
    = Some walk_dog
  ∧ read (todosReducer_obj (mkEnv uuid_1 0) [walk_dog] [0%nat] (Toggle uuid_2)).1
         (todosReducer_obj (mkEnv uuid_1 0) [walk_dog] [0%nat] (Toggle uuid_2)).2
    = todosReducer (mkEnv uuid_1 0) (read [walk_dog] [0%nat])
        (read_action [walk_dog] (Toggle uuid_2)).
Proof.
  destruct (transition_depends_on_its_inputs (mkEnv uuid_1 0) (mkEnv uuid_2 1)
              [walk_dog] (Add "Buy milk") [walk_dog] [0%nat] (Toggle uuid_2))
    as (_ & Hadd & Hkept & Hread).
  split; [|split].
  - apply (Hadd "Buy milk"); [reflexivity|vm_compute; discriminate].
  - apply Hkept. reflexivity.
  - apply Hread. repeat constructor.
Defined.

(** The same on records: [add] leaves the collection as a suffix of the
    result, [toggle] keeps every position, [remove] and [clearCompleted]
    return a subsequence. *)
Lemma todosReducer_order (env : Env) (C : list Todo) (a : Action) :
  match a with
  | Add _ => C `suffix_of` todosReducer env C a
  | Toggle i =>
      Forall2 (λ t t', id t' = id t ∧ (id t ≠ i → t' = t)) C (todosReducer env C a)
  | Remove _ | ClearCompleted => todosReducer env C a `sublist_of` C
  | Hydrate _ => True
  end.
Proof.
  destruct a as [txt|i|i| |todos]; simpl; try done.
  - destruct (decide (trim txt = "")); [done|]. by apply suffix_cons_r.
  - apply Forall2_fmap_r, Forall_Forall2_diag, Forall_forall. intros t _.
    unfold compose. destruct (decide (id t = i)) as [Heq|Hne].
    + split; [done|]. intros Hne. by destruct Hne.
    + by split.
  - apply sublist_filter.
  - apply sublist_filter.
Qed.

(** C10: every transition preserves the relative order of the records it
    retains: for every collection, held as an array of record objects, and
    every intent of the forms Add(t), Toggle(id), Remove(id) and
    ClearCompleted(), the record objects common to the array before and
    the array after appear in the same order in both; read as records,
    Add leaves the collection as a suffix of the result, Toggle keeps
    every record at its position, Remove and ClearCompleted return a
    subsequence of the collection. *)
Theorem retained_records_keep_order (env : Env) (h : heap) (state : list ref)
  (a : ActionOf ref) :
  allocated h state → (∀ todos, a ≠ Hydrate todos) →
  filter (.∈ (todosReducer_obj env h state a).2) state
  = filter (.∈ state) (todosReducer_obj env h state a).2
  ∧ match a with
    | Add _ =>
        read h state
          `suffix_of` read (todosReducer_obj env h state a).1
                           (todosReducer_obj env h state a).2
    | Toggle i =>
        Forall2 (λ t t', id t' = id t ∧ (id t ≠ i → t' = t))
          (read h state)
          (read (todosReducer_obj env h state a).1 (todosReducer_obj env h state a).2)
    | Remove _ | ClearCompleted =>
        read (todosReducer_obj env h state a).1 (todosReducer_obj env h state a).2
          `sublist_of` read h state
    | Hydrate _ => True
    end.
Proof.
  intros Hall Hnh. split.
  - destruct a as [txt|i|i| |todos]; simpl.
    + destruct (decide (trim txt = "")); simpl; [done|].
      rewrite filter_cons_False.
      * rewrite !filter_elem_of_self; [done|done|]. intros p Hp. by right.
      * intros Hin. unfold allocated in Hall. rewrite Forall_forall in Hall.
        specialize (Hall _ Hin). lia.
    + destruct (map_toggle_spec h i state h) as [HF _]; [done|done|].
      rewrite (toggled_to_common_l h i state _ Hall HF).
      by rewrite (toggled_to_common_r h i state _ Hall HF).
    + rewrite filter_elem_of_filter. symmetry. apply filter_elem_of_self.
      apply list_subseteq_filter.
    + rewrite filter_elem_of_filter. symmetry. apply filter_elem_of_self.
      apply list_subseteq_filter.
    + by destruct (Hnh todos).
  - rewrite (todosReducer_obj_read env h state a Hall).
    pose proof (todosReducer_order env (read h state) (read_action h a)) as Hord.
    by destruct a.
Qed.

Lemma retained_records_keep_order_witness :
  filter (.∈ (todosReducer_obj (mkEnv uuid_1 0) [walk_dog; buy_milk] [0; 1]%nat
                (Toggle uuid_2)).2) [0; 1]%nat
  = filter (.∈ [0; 1]%nat)
      (todosReducer_obj (mkEnv uuid_1 0) [walk_dog; buy_milk] [0; 1]%nat
         (Toggle uuid_2)).2
  ∧ Forall2 (λ t t', id t' = id t ∧ (id t ≠ uuid_2 → t' = t))
      (read [walk_dog; buy_milk] [0; 1]%nat)
      (read (todosReducer_obj (mkEnv uuid_1 0) [walk_dog; buy_milk] [0; 1]%nat
               (Toggle uuid_2)).1
            (todosReducer_obj (mkEnv uuid_1 0) [walk_dog; buy_milk] [0; 1]%nat
               (Toggle uuid_2)).2).
Proof.
  apply (retained_records_keep_order (mkEnv uuid_1 0) [walk_dog; buy_milk]
           [0; 1]%nat (Toggle uuid_2)).
  - repeat constructor.
  - intros todos Ht. discriminate Ht.
Defined.

(** * Identifiers *)

Lemma toggle_keeps_ids (C : list Todo) (i : string) :
  id <$> ((λ t, if decide (id t = i) then flip_completed t else t) <$> C)
  = id <$> C.
Proof.
  rewrite <- list_fmap_compose. apply list_fmap_ext. intros _ t _. simpl.
  by destruct (decide (id t = i)).
Qed.

Lemma filter_keeps_NoDup_ids (P : Todo → Prop) `{!∀ t, Decision (P t)}
  (C : list Todo) :
  NoDup (id <$> C) → NoDup (id <$> filter P C).
Proof.
  intros Hnd. eapply sublist_NoDup; [exact Hnd|].
  apply fmap_sublist, sublist_filter.
Qed.

(** One transition keeps identifiers distinct when it is given what
    [step_ok] asks for. *)
Lemma todosReducer_NoDup (env : Env) (C : list Todo) (a : Action) :
  NoDup (id <$> C) → step_ok C env a →
  NoDup (id <$> todosReducer env C a).
Proof.
  intros Hnd Hok. destruct a as [txt|i|i| |todos]; simpl in *.
  - destruct (decide (trim txt = "")) as [Hb|Hb]; [done|].
    rewrite fmap_cons. simpl. apply NoDup_cons. split; [|done].
    by destruct Hok.
  - by rewrite toggle_keeps_ids.
  - by apply filter_keeps_NoDup_ids.
  - by apply filter_keeps_NoDup_ids.
  - done.
Qed.

(** C8 (as amended): starting from the empty collection, after any
    sequence of transitions in which every Hydrate is given records with
    pairwise distinct identifiers and every Add of a non-blank text draws
    an identifier that is not in the collection, no two records in the
    collection have equal identifiers. *)
Theorem identifiers_stay_distinct (C : list Todo) :
  guarded C → NoDup (id <$> C).
Proof.
  induction 1 as [|C env a _ IH Hok]; [constructor|].
  by apply todosReducer_NoDup.
Qed.

Lemma identifiers_stay_distinct_witness :
  NoDup (id <$> todosReducer (mkEnv uuid_1 1) 
                  (todosReducer (mkEnv uuid_2 0) [] (Add "Walk dog"))
                  (Add "Buy milk")).
Proof.
  apply (identifiers_stay_distinct
           (todosReducer (mkEnv uuid_1 1)
              (todosReducer (mkEnv uuid_2 0) [] (Add "Walk dog"))
              (Add "Buy milk"))).
  apply guarded_step.
  - apply guarded_step; [apply guarded_init|].
    right. vm_compute. intros H. apply list_elem_of_In in H. destruct H.
  - right. vm_compute. intros H. apply list_elem_of_In in H. simpl in H.
    destruct H as [H|[]]. discriminate H.
Defined.

(** * The reference codec reads back what it writes *)

Lemma string_app_cons (x : ascii) (a b : string) :
  String x a +:+ b = String x (a +:+ b).
Proof. reflexivity. Qed.

Lemma string_app_nil_l (a : string) : "" +:+ a = a.
Proof. reflexivity. Qed.

Lemma string_app_assoc (a b c : string) : (a +:+ b) +:+ c = a +:+ b +:+ c.
Proof.
  induction a as [|x a IH]; [done|]. rewrite !string_app_cons. by f_equal.
Qed.

Lemma string_app_nil_r (a : string) : a +:+ "" = a.
Proof.
  induction a as [|x a IH]; [done|]. rewrite string_app_cons. by f_equal.
Qed.

Lemma string_length_app (a b : string) :
  String.length (a +:+ b) = (String.length a + String.length b)%nat.
Proof.
  induction a as [|x a IH]; [done|]. rewrite string_app_cons. simpl. by f_equal.
Qed.

(** ** String literals *)

Lemma json_parse_escape (c : ascii) (tail : string) :
  JSON.parse_string_body (JSON.escape c +:+ tail)
  = '(str, rest) ← JSON.parse_string_body tail; Some (String c str, rest).
Proof.
  destruct c as [[] [] [] [] [] [] [] []]; reflexivity.
Qed.

Lemma json_parse_quote_body (s rest : string) :
  JSON.parse_string_body (JSON.quote_body s +:+ String JSON.dquote rest)
  = Some (s, rest).
Proof.
  induction s as [|c s IH]; [done|].
  simpl JSON.quote_body. rewrite string_app_assoc, json_parse_escape, IH.
  reflexivity.
Qed.

(** ** Numbers *)

Lemma json_parse_uint_print (d : Decimal.uint) (rest : string) :
  no_digit_ahead rest →
  JSON.parse_uint (NilEmpty.string_of_uint d +:+ rest) = (d, rest).
Proof.
  intros Hrest. induction d as [|d IH|d IH|d IH|d IH|d IH|d IH|d IH|d IH|d IH|d IH];
    simpl NilEmpty.string_of_uint; rewrite ?string_app_cons, ?string_app_nil_l;
    try (simpl; by rewrite IH).
  destruct rest as [|c rest]; [done|]. simpl in *. by rewrite Hrest.
Qed.

Lemma to_uint_no_leading_zero (p : positive) (d : Decimal.uint) :
  Pos.to_uint p ≠ Decimal.D0 d.
Proof.
  intros Hp.
  pose proof (DecimalPos.Unsigned.to_of (Pos.to_uint p)) as Hn.
  rewrite DecimalPos.Unsigned.of_to in Hn. simpl in Hn.
  rewrite Hp in Hn. unfold Decimal.unorm in Hn.
  destruct (Decimal.nzhead (Decimal.D0 d)) eqn:Hz;
    try (by (symmetry in Hn; rewrite <- Hz in Hn; apply nzhead_nonzero in Hn)).
  injection Hn as ->. by apply (DecimalPos.Unsigned.to_uint_nonzero p).
Qed.

Lemma json_parse_unsigned_print (negative : bool) (d : Decimal.uint) (rest : string) :
  canonical d → follow_ok rest →
  JSON.parse_unsigned negative (NilEmpty.string_of_uint d +:+ rest)
  = Some (Finite (Z.of_int (if negative then Decimal.Neg d else Decimal.Pos d)), rest).
Proof.
  intros [Hnil Hzero] Hrest. unfold JSON.parse_unsigned.
  rewrite json_parse_uint_print.
  - assert (match rest with
            | String c _ =>
                if Ascii.eqb c "." || Ascii.eqb c "e" || Ascii.eqb c "E" then None
                else Some (Finite (Z.of_int (if negative then Decimal.Neg d else Decimal.Pos d)), rest)
            | EmptyString =>
                Some (Finite (Z.of_int (if negative then Decimal.Neg d else Decimal.Pos d)), rest)
            end
            = Some (Finite (Z.of_int (if negative then Decimal.Neg d else Decimal.Pos d)), rest))
      as ->.
    { destruct rest as [|c rest]; [done|]. by destruct Hrest as [->|[->| ->]]. }
    destruct d as [|d|d|d|d|d|d|d|d|d|d]; try done.
    by rewrite (Hzero d eq_refl).
  - destruct rest as [|c rest]; [done|]. by destruct Hrest as [->|[->| ->]].
Qed.

Lemma canonical_to_int (z : Z) :
  match Z.to_int z with
  | Decimal.Pos d | Decimal.Neg d => canonical d
  end.
Proof.
  destruct z as [|p|p]; simpl.
  - split; [done|]. by intros d' [= <-].
  - split; [apply DecimalPos.Unsigned.to_uint_nonnil|].
    intros d' Hd. by destruct (to_uint_no_leading_zero p d').
  - split; [apply DecimalPos.Unsigned.to_uint_nonnil|].
    intros d' Hd. by destruct (to_uint_no_leading_zero p d').
Qed.

(** The first character of the digits of a canonical numeral. *)
Lemma string_of_uint_head (d : Decimal.uint) :
  canonical d →
  ∃ c s, NilEmpty.string_of_uint d = String c s ∧ is_Some (JSON.digit_of c).
Proof.
  intros [Hnil _]. destruct d; try done; simpl; eexists _, _; split; done.
Qed.

Lemma json_parse_print_Z (z : Z) (rest : string) :
  follow_ok rest →
  JSON.parse_number (JSON.print_Z z +:+ rest) = Some (Finite z, rest).
Proof.
  intros Hrest. unfold JSON.print_Z.
  pose proof (canonical_to_int z) as Hc. pose proof (DecimalZ.of_to z) as Hz.
  destruct (Z.to_int z) as [d|d]; simpl NilEmpty.string_of_int.
  - destruct (string_of_uint_head d Hc) as (c & s & Hs & Hdig).
    pose proof (json_parse_unsigned_print false d rest Hc Hrest) as Hp.
    rewrite Hs in *. rewrite string_app_cons in *. simpl.
    assert (Ascii.eqb c "-" = false) as ->.
    { destruct (Ascii.eqb_spec c "-") as [->|]; [|done]. by destruct Hdig. }
    by rewrite Hp, Hz.
  - rewrite string_app_cons. simpl.
    by rewrite (json_parse_unsigned_print true d rest Hc Hrest), Hz.
Qed.

(** ** Values *)

Lemma JSValue_nested_ind (P : JSValue → Prop) :
  P JSNull →
  (∀ b, P (JSBoolean b)) →
  (∀ n, P (JSNumber n)) →
  (∀ s, P (JSString s)) →
  (∀ items, Forall P items → P (JSArray items)) →
  (∀ props, Forall (λ kv, P kv.2) props → P (JSObject props)) →
  ∀ v, P v.
Proof.
  intros Hnull Hbool Hnum Hstr Harr Hobj. fix IH 1.
  intros [ |b|n|s|items|props]; [done|done|done|done| |].
  - apply Harr. induction items as [|x items IHitems]; constructor; [apply IH|done].
  - apply Hobj. induction props as [|[k x] props IHprops]; constructor; [apply IH|done].
Qed.

Lemma print_Z_head (z : Z) :
  ∃ c s, JSON.print_Z z = String c s ∧ number_head c.
Proof.
  unfold JSON.print_Z. pose proof (canonical_to_int z) as Hc.
  destruct (Z.to_int z) as [d|d]; simpl.
  - destruct (string_of_uint_head d Hc) as (c & s & -> & Hdig).
    exists c, s. split; [done|by right].
  - eexists _, _. split; [done|by left].
Qed.

Lemma number_head_not_ws (c : ascii) :
  number_head c → JSON.is_json_ws c = false ∧ Ascii.eqb c "]" = false.
Proof.
  intros [->|Hdig]; [done|]. revert Hdig.
  destruct c as [[] [] [] [] [] [] [] []]; simpl; intros [f Hf]; done.
Qed.

Lemma json_parse_value_number (fuel : nat) (c : ascii) (tail : string) :
  number_head c →
  JSON.parse_value (S fuel) (String c tail)
  = '(n, rest) ← JSON.parse_number (String c tail); Some (JSNumber n, rest).
Proof.
  intros [->|Hdig]; [done|]. revert Hdig.
  destruct c as [[] [] [] [] [] [] [] []]; simpl; intros [f Hf]; done.
Qed.

Lemma stringify_head (v : JSValue) :
  ∃ c s, JSON.stringify v = String c s
       ∧ JSON.is_json_ws c = false ∧ Ascii.eqb c "]" = false.
Proof.
  destruct v as [ |b|n|s|items|props]; simpl.
  - by eexists _, _.
  - destruct b; by eexists _, _.
  - destruct n as [z| |neg]; [|by eexists _, _|by eexists _, _].
    destruct (print_Z_head z) as (c & s & -> & Hc).
    exists c, s. split; [done|]. by apply number_head_not_ws.
  - by eexists _, _.
  - by eexists _, _.
  - by eexists _, _.
Qed.

Lemma json_skip_ws_head (c : ascii) (s : string) :
  JSON.is_json_ws c = false → JSON.skip_ws (String c s) = String c s.
Proof. intros H. simpl. by rewrite H. Qed.

Lemma string_concat_cons2 (sep a b : string) (l : list string) :
  String.concat sep (a :: b :: l) = a +:+ sep +:+ String.concat sep (b :: l).
Proof. reflexivity. Qed.

Lemma json_parse_elements_unfold (fuel : nat) (s : string) :
  JSON.parse_elements (S fuel) s
  = '(v, rest) ← JSON.parse_value fuel s;
    match JSON.skip_ws rest with
    | EmptyString => None
    | String c rest' =>
        if Ascii.eqb c "," then
          '(vs, r) ← JSON.parse_elements fuel rest'; Some (v :: vs, r)
        else if Ascii.eqb c "]" then Some ([v], rest')
        else None
    end.
Proof. reflexivity. Qed.

Lemma json_parse_elements (items : list JSValue) :
  items ≠ [] → Forall reads_back items →
  ∀ fuel rest,
    (foldr (λ x n, S (fuel_for x `max` n)) 0 items ≤ fuel)%nat →
    JSON.parse_elements fuel
      (String.concat "," (JSON.stringify <$> items) +:+ String "]" rest)
    = Some (json_image <$> items, rest).
Proof.
  induction items as [|x items IH]; [done|].
  intros _ HF fuel rest Hfuel.
  apply Forall_cons in HF as [Hx HF].
  destruct fuel as [|fuel]; [simpl in Hfuel; lia|].
  simpl foldr in Hfuel. rewrite json_parse_elements_unfold.
  destruct items as [|y items].
  - rewrite !fmap_cons. simpl String.concat.
    rewrite (Hx fuel (String "]" rest)); [done|lia|by right; left].
  - rewrite (fmap_cons _ x), (fmap_cons _ y), string_concat_cons2.
    rewrite !string_app_assoc, string_app_cons, string_app_nil_l.
    rewrite (fmap_cons json_image x).
    specialize (IH ltac:(done) HF fuel rest ltac:(lia)).
    rewrite (fmap_cons JSON.stringify y) in IH.
    remember (String.concat "," (JSON.stringify y :: (JSON.stringify <$> items))
              +:+ String "]" rest) as T eqn:HT.
    remember (json_image <$> y :: items) as L eqn:HL.
    rewrite (Hx fuel); [|lia|by left]. simpl. by rewrite IH.
Qed.

Lemma json_member_text (k sv tail : string) :
  (JSON.quote k +:+ ":" +:+ sv) +:+ tail
  = String JSON.dquote
      (JSON.quote_body k +:+ String JSON.dquote (String ":" (sv +:+ tail))).
Proof.
  unfold JSON.quote.
  rewrite (string_app_assoc _ (":" +:+ sv) tail), string_app_cons.
  rewrite (string_app_assoc (JSON.quote_body k)). reflexivity.
Qed.

Lemma json_parse_members_unfold (fuel : nat) (s1 : string) :
  JSON.parse_members (S fuel) (String JSON.dquote s1)
  = '(k, s2) ← JSON.parse_string_body s1;
    match JSON.skip_ws s2 with
    | EmptyString => None
    | String colon s3 =>
        if Ascii.eqb colon ":" then
          '(v, s4) ← JSON.parse_value fuel s3;
          match JSON.skip_ws s4 with
          | EmptyString => None
          | String c s5 =>
              if Ascii.eqb c "," then
                '(ms, r) ← JSON.parse_members fuel s5; Some ((k, v) :: ms, r)
              else if Ascii.eqb c "}" then Some ([(k, v)], s5)
              else None
          end
        else None
    end.
Proof. reflexivity. Qed.

Lemma json_parse_members (props : list (string * JSValue)) :
  props ≠ [] → Forall (λ kv, reads_back kv.2) props →
  ∀ fuel rest,
    (foldr (λ kv n, S (fuel_for kv.2 `max` n)) 0 props ≤ fuel)%nat →
    JSON.parse_members fuel
      (String.concat ","
         ((λ kv, JSON.quote kv.1 +:+ ":" +:+ JSON.stringify kv.2) <$> props)
       +:+ String "}" rest)
    = Some ((λ kv, (kv.1, json_image kv.2)) <$> props, rest).
Proof.
  induction props as [|[k x] props IH]; [done|].
  intros _ HF fuel rest Hfuel.
  apply Forall_cons in HF as [Hx HF]. simpl in Hx.
  destruct fuel as [|fuel]; [simpl in Hfuel; lia|].
  simpl foldr in Hfuel.
  destruct props as [|y props].
  - rewrite !fmap_cons. simpl String.concat. simpl fst. simpl snd.
    rewrite json_member_text, json_parse_members_unfold, json_parse_quote_body.
    simpl. rewrite (Hx fuel (String "}" rest)); [done|lia|by right; right].
  - rewrite (fmap_cons _ (k, x)), (fmap_cons _ y), string_concat_cons2.
    simpl fst. simpl snd.
    specialize (IH ltac:(done) HF fuel rest ltac:(lia)).
    rewrite (fmap_cons _ y) in IH.
    remember (String.concat ","
                ((JSON.quote y.1 +:+ ":" +:+ JSON.stringify y.2)
                 :: ((λ kv, JSON.quote kv.1 +:+ ":" +:+ JSON.stringify kv.2) <$> props)))
      as M eqn:HM.
    rewrite (fmap_cons _ (k, x)). simpl fst. simpl snd.
    remember ((λ kv, (kv.1, json_image kv.2)) <$> y :: props) as L eqn:HL.
    rewrite (string_app_assoc (JSON.quote k +:+ ":" +:+ JSON.stringify x)).
    rewrite (string_app_assoc "," M).
    change ("," +:+ M +:+ String "}" rest) with (String "," (M +:+ String "}" rest)).
    remember (M +:+ String "}" rest) as T eqn:HT.
    rewrite json_member_text, json_parse_members_unfold, json_parse_quote_body.
    simpl. rewrite (Hx fuel); [|lia|by left]. simpl. by rewrite IH.
Qed.

Lemma set_property_fresh (props : list (string * JSValue)) (k : string)
  (v : JSValue) :
  k ∉ fst <$> props → JSON.set_property props k v = props ++ [(k, v)].
Proof.
  induction props as [|[k' v'] props IH]; intros Hk; [done|].
  rewrite fmap_cons in Hk. apply not_elem_of_cons in Hk as [Hne Hk].
  simpl. rewrite decide_False by done. by rewrite IH.
Qed.

Lemma make_object_distinct (acc members : list (string * JSValue)) :
  NoDup (fst <$> (acc ++ members)) →
  foldl (λ props kv, JSON.set_property props kv.1 kv.2) acc members
  = acc ++ members.
Proof.
  revert acc. induction members as [|[k v] members IH]; intros acc Hnd.
  - by rewrite app_nil_r.
  - simpl. rewrite set_property_fresh.
    + rewrite IH; [by rewrite <- app_assoc|]. by rewrite <- app_assoc.
    + rewrite fmap_app, fmap_cons in Hnd.
      apply NoDup_app in Hnd as (_ & Hnd & _).
      intros Hin. apply (Hnd k Hin). left.
Qed.

Lemma well_formed_items (items : list JSValue) :
  foldr (λ x P, well_formed x ∧ P) True items ↔ Forall well_formed items.
Proof.
  induction items as [|x items IH]; simpl.
  - split; [constructor|done].
  - rewrite Forall_cons. tauto.
Qed.

Lemma well_formed_props (props : list (string * JSValue)) :
  foldr (λ kv P, well_formed kv.2 ∧ P) True props
  ↔ Forall (λ kv, well_formed kv.2) props.
Proof.
  induction props as [|x props IH]; simpl.
  - split; [constructor|done].
  - rewrite Forall_cons. tauto.
Qed.

Lemma json_image_keys (props : list (string * JSValue)) :
  fst <$> ((λ kv, (kv.1, json_image kv.2)) <$> props) = fst <$> props.
Proof. rewrite <- list_fmap_compose. by apply list_fmap_ext. Qed.

Lemma json_reads_back (v : JSValue) : well_formed v → reads_back v.
Proof.
  induction v as [ |b|n|s|items IH|props IH] using JSValue_nested_ind;
    intros Hwf fuel rest Hfuel Hrest;
    (destruct fuel as [|fuel]; [simpl in Hfuel; lia|]).
  - reflexivity.
  - destruct b; reflexivity.
  - destruct n as [z| |neg]; [|reflexivity|reflexivity].
    simpl JSON.stringify. simpl json_image.
    pose proof (json_parse_print_Z z rest Hrest) as Hp.
    destruct (print_Z_head z) as (c & s & Hs & Hc).
    rewrite Hs in *. rewrite string_app_cons in *.
    rewrite json_parse_value_number by done. by rewrite Hp.
  - simpl JSON.stringify. unfold JSON.quote.
    rewrite string_app_cons, string_app_assoc, string_app_cons, string_app_nil_l.
    transitivity ('(str, rest') ← JSON.parse_string_body
                     (JSON.quote_body s +:+ String JSON.dquote rest);
                  Some (JSString str, rest')); [reflexivity|].
    by rewrite json_parse_quote_body.
  - simpl in Hwf. apply well_formed_items in Hwf.
    assert (Forall reads_back items) as HF.
    { apply Forall_forall. intros x Hx. rewrite Forall_forall in IH, Hwf. auto. }
    simpl JSON.stringify. simpl json_image. simpl fuel_for in Hfuel.
    rewrite !string_app_cons, string_app_nil_l, string_app_assoc.
    change ("]" +:+ rest) with (String "]" rest).
    destruct items as [|x items]; [reflexivity|].
    pose proof (json_parse_elements (x :: items) ltac:(done) HF fuel rest ltac:(lia))
      as Hp.
    destruct (stringify_head x) as (c & s & Hs & Hws & Hc).
    assert (∃ s', String.concat "," (JSON.stringify <$> x :: items)
                  +:+ String "]" rest = String c s') as [s' Hs'].
    { rewrite fmap_cons. destruct items as [|y items].
      - simpl String.concat. rewrite Hs, string_app_cons. by eexists.
      - rewrite fmap_cons, string_concat_cons2, Hs, !string_app_cons. by eexists. }
    rewrite Hs' in *.
    transitivity ('(vs, r) ← JSON.parse_elements fuel (String c s');
                  Some (JSArray vs, r)).
    + simpl. by rewrite Hws, Hc.
    + by rewrite Hp.
  - simpl in Hwf. destruct Hwf as [Hnd Hwf]. apply well_formed_props in Hwf.
    assert (Forall (λ kv, reads_back kv.2) props) as HF.
    { apply Forall_forall. intros x Hx. rewrite Forall_forall in IH, Hwf. auto. }
    simpl JSON.stringify. simpl json_image. simpl fuel_for in Hfuel.
    rewrite !string_app_cons, string_app_nil_l, string_app_assoc.
    change ("}" +:+ rest) with (String "}" rest).
    destruct props as [|[k x] props]; [reflexivity|].
    pose proof (json_parse_members ((k, x) :: props) ltac:(done) HF fuel rest
                  ltac:(lia)) as Hp.
    assert (∃ s', String.concat ","
                    ((λ kv, JSON.quote kv.1 +:+ ":" +:+ JSON.stringify kv.2)
                       <$> (k, x) :: props)
                  +:+ String "}" rest = String JSON.dquote s') as [s' Hs'].
    { rewrite fmap_cons. destruct props as [|y props].
      - simpl String.concat. unfold JSON.quote. rewrite !string_app_cons. by eexists.
      - rewrite fmap_cons, string_concat_cons2. unfold JSON.quote at 1.
        rewrite !string_app_cons. by eexists. }
    rewrite Hs' in *.
    transitivity ('(ms, r) ← JSON.parse_members fuel (String JSON.dquote s');
                  Some (JSON.make_object ms, r)); [reflexivity|].
    rewrite Hp. simpl. unfold JSON.make_object. rewrite make_object_distinct.
    + done.
    + rewrite app_nil_l.
      change (NoDup (fst <$> ((λ kv, (kv.1, json_image kv.2)) <$> (k, x) :: props))).
      by rewrite json_image_keys.
Qed.

Lemma fuel_for_le_length (v : JSValue) :
  (fuel_for v ≤ String.length (JSON.stringify v))%nat.
Proof.
  induction v as [ |b|n|s|items IH|props IH] using JSValue_nested_ind.
  - simpl. lia.
  - destruct b; simpl; lia.
  - destruct (stringify_head (JSNumber n)) as (c & s' & -> & _). simpl. lia.
  - simpl. lia.
  - simpl fuel_for. simpl JSON.stringify.
    rewrite !string_length_app. simpl String.length.
    assert (foldr (λ x n, S (fuel_for x `max` n)) 0 items
            ≤ S (String.length (String.concat "," (JSON.stringify <$> items))))%nat;
      [|lia].
    induction IH as [|x items Hx _ IHitems]; [simpl; lia|].
    simpl foldr. rewrite fmap_cons. destruct items as [|y items].
    + simpl. lia.
    + rewrite fmap_cons, string_concat_cons2, !string_length_app.
      rewrite fmap_cons in IHitems. change (String.length ",") with 1%nat. lia.
  - simpl fuel_for. simpl JSON.stringify.
    rewrite !string_length_app. simpl String.length.
    assert (foldr (λ kv n, S (fuel_for kv.2 `max` n)) 0 props
            ≤ S (String.length
                   (String.concat ","
                      ((λ kv, JSON.quote kv.1 +:+ ":" +:+ JSON.stringify kv.2)
                         <$> props))))%nat; [|lia].
    induction IH as [|x props Hx _ IHprops]; [simpl; lia|].
    simpl foldr. rewrite fmap_cons. destruct props as [|y props].
    + simpl String.concat. rewrite !string_length_app. simpl. lia.
    + rewrite fmap_cons, string_concat_cons2, !string_length_app.
      rewrite fmap_cons in IHprops. change (String.length ",") with 1%nat. lia.
Qed.

Lemma json_parse_stringify (v : JSValue) :
  well_formed v → JSON.parse (JSON.stringify v) = Some (json_image v).
Proof.
  intros Hwf. unfold JSON.parse.
  pose proof (json_reads_back v Hwf (S (String.length (JSON.stringify v))) "") as Hp.
  rewrite string_app_nil_r in Hp. rewrite Hp; [done| |done].
  pose proof (fuel_for_le_length v). lia.
Qed.

(** The reference codec has what the adapter relies on. *)
Lemma ecma_lawful : lawful ecma.
Proof. split; [apply json_parse_stringify|reflexivity]. Qed.

(** * The storage adapter *)

Lemma is_Todo_spec (x : JSValue) :
  is_Todo x = true
  ↔ ∃ i t c n, get_opt x "id" = Some (JSString i)
             ∧ get_opt x "text" = Some (JSString t)
             ∧ get_opt x "completed" = Some (JSBoolean c)
             ∧ get_opt x "createdAt" = Some (JSNumber n).
Proof.
  unfold is_Todo. rewrite !andb_true_iff, !bool_decide_eq_true. split.
  - intros [[[Hi Ht] Hc] Hn].
    destruct (get_opt x "id") as [[]|]; try done.
    destruct (get_opt x "text") as [[]|]; try done.
    destruct (get_opt x "completed") as [[]|]; try done.
    destruct (get_opt x "createdAt") as [[]|]; try done.
    by eexists _, _, _, _.
  - intros (i & t & c & n & -> & -> & -> & ->). done.
Qed.

Lemma as_Todo_spec (x : JSValue) :
  is_Todo x = true → ∃ t, as_Todo x = Some t ∧ shows x t.
Proof.
  intros (i & t & c & n & Hi & Ht & Hc & Hn)%is_Todo_spec.
  exists (mkTodo i t c n). unfold as_Todo, shows. rewrite Hi, Ht, Hc, Hn. done.
Qed.

Lemma narrowed_shows (items : list JSValue) :
  Forall2 shows (filter (λ x, is_Todo x) items)
    (omap as_Todo (filter (λ x, is_Todo x) items)).
Proof.
  induction items as [|x items IH]; [constructor|].
  rewrite filter_cons. destruct (decide (is_Todo x)) as [Hx|Hx]; [|done].
  apply Is_true_true in Hx. destruct (as_Todo_spec x Hx) as (t & Ht & Hshows).
  simpl. rewrite Ht. by constructor.
Qed.

Lemma loadTodos_array (J : JSONCodec) (st : Storage) (raw : string)
  (items : list JSValue) :
  parse J "" = None →
  getItem st STORAGE_KEY = Some raw → parse J raw = Some (JSArray items) →
  loadTodos J st = omap as_Todo (filter (λ x, is_Todo x) items).
Proof.
  intros Hempty Hraw Hparse. unfold loadTodos, loadTodos_try. rewrite Hraw.
  destruct (decide (raw = "")) as [->|_]; [congruence|].
  by rewrite Hparse.
Qed.

(** C6: Load never raises and degrades to empty or filtered data.  If the
    slot is absent, holds an unparseable encoding, or decodes to a value
    that is not an array, Load returns the empty collection, also when an
    exception is thrown inside its [try] block; if it decodes to an array,
    Load returns, in order, the elements that validate as a task record
    (id and text strings, completed a boolean, createdAt a number), read
    as records, and drops the others; so an array of one well-formed and
    one malformed record loads as the singleton of the well-formed
    record. *)
Theorem loadTodos_degrades (J : JSONCodec) (st : Storage) :
  parse J "" = None →
  (getItem st STORAGE_KEY = None → loadTodos J st = [])
  ∧ (loadTodos_try J st = None → loadTodos J st = [])
  ∧ (∀ raw, getItem st STORAGE_KEY = Some raw → parse J raw = None →
       loadTodos J st = [])
  ∧ (∀ raw v, getItem st STORAGE_KEY = Some raw → parse J raw = Some v →
       (∀ items, v ≠ JSArray items) → loadTodos J st = [])
  ∧ (∀ raw items, getItem st STORAGE_KEY = Some raw →
       parse J raw = Some (JSArray items) →
       Forall2 shows (filter (λ x, is_Todo x) items) (loadTodos J st))
  ∧ (∀ x, is_Todo x = true
          ↔ ∃ i t c n, get_opt x "id" = Some (JSString i)
                     ∧ get_opt x "text" = Some (JSString t)
                     ∧ get_opt x "completed" = Some (JSBoolean c)
                     ∧ get_opt x "createdAt" = Some (JSNumber n))
  ∧ (∀ raw good bad, getItem st STORAGE_KEY = Some raw →
       (parse J raw = Some (JSArray [good; bad])
        ∨ parse J raw = Some (JSArray [bad; good])) →
       is_Todo good = true → is_Todo bad = false →
       ∃ t, loadTodos J st = [t] ∧ shows good t).
Proof.
  intros Hempty. repeat split.
  - intros Hraw. unfold loadTodos, loadTodos_try. by rewrite Hraw.
  - intros Hthrow. unfold loadTodos. by rewrite Hthrow.
  - intros raw Hraw Hparse. unfold loadTodos, loadTodos_try. rewrite Hraw.
    destruct (decide (raw = "")); [done|]. by rewrite Hparse.
  - intros raw v Hraw Hparse Hv. unfold loadTodos, loadTodos_try. rewrite Hraw.
    destruct (decide (raw = "")); [done|]. rewrite Hparse. simpl.
    destruct v; try done. by destruct (Hv items).
  - intros raw items Hraw Hparse.
    rewrite (loadTodos_array J st raw items Hempty Hraw Hparse).
    apply narrowed_shows.
  - by apply is_Todo_spec.
  - by apply is_Todo_spec.
  - intros raw good bad Hraw Hparse Hgood Hbad.
    destruct (as_Todo_spec good Hgood) as (t & Ht & Hshows).
    exists t. split; [|done].
    destruct Hparse as [Hparse|Hparse];
      rewrite (loadTodos_array J st raw _ Hempty Hraw Hparse);
      rewrite !filter_cons, filter_nil;
      rewrite (decide_True (P := is_Todo good)) by (by apply Is_true_true);
      rewrite (decide_False (P := is_Todo bad)) by (by apply Is_true_false);
      simpl; by rewrite Ht.
Qed.

Lemma loadTodos_degrades_witness :
  ∃ t, loadTodos ecma mixed_storage = [t] ∧ shows (Todo_object buy_milk) t.
Proof.
  destruct (loadTodos_degrades ecma mixed_storage eq_refl)
    as (_ & _ & _ & _ & _ & _ & Hmixed).
  apply (Hmixed (JSON.stringify (JSArray [Todo_object buy_milk; malformed]))
           (Todo_object buy_milk) malformed).
  - reflexivity.
  - left. vm_compute. reflexivity.
  - reflexivity.
  - reflexivity.
Defined.

Lemma loadTodos_mixed_storage : loadTodos ecma mixed_storage = [buy_milk].
Proof. vm_compute. reflexivity. Qed.

Lemma loadTodos_samples :
  loadTodos ecma ∅ = []
  ∧ loadTodos ecma {[ STORAGE_KEY := "" ]} = []
  ∧ loadTodos ecma {[ STORAGE_KEY := "[1," ]} = []
  ∧ loadTodos ecma {[ STORAGE_KEY := "{}" ]} = []
  ∧ loadTodos ecma {[ STORAGE_KEY := "null" ]} = []
  ∧ loadTodos ecma {[ STORAGE_KEY := "[null, 1, [], {}]" ]} = [].
Proof. repeat split; vm_compute; reflexivity. Qed.

Lemma Todo_object_well_formed (C : list Todo) :
  well_formed (JSArray (Todo_object <$> C)).
Proof.
  simpl. apply well_formed_items, Forall_fmap, Forall_forall. intros t _.
  simpl. split; [|done].
  repeat (apply NoDup_cons; split;
          [intros Hin; apply list_elem_of_In in Hin; simpl in Hin;
           intuition discriminate|]).
  apply NoDup_nil_2.
Qed.

Lemma narrow_image (C : list Todo) :
  omap as_Todo (filter (λ x, is_Todo x) (json_image <$> (Todo_object <$> C)))
  = filter (λ t, is_finite (createdAt t) = true) C.
Proof.
  induction C as [|t C IH]; [done|].
  rewrite !fmap_cons, !filter_cons, <- IH.
  destruct t as [i x c n]. destruct n as [z| |neg]; simpl; done.
Qed.

(** What Load returns after Save: the records whose [createdAt] is
    finite. *)
Lemma loadTodos_saveTodos (J : JSONCodec) (st : Storage) (C : list Todo) :
  lawful J →
  loadTodos J (saveTodos J st C) = filter (λ t, is_finite (createdAt t) = true) C.
Proof.
  intros [Hrt Hempty].
  pose proof (Hrt _ (Todo_object_well_formed C)) as Hparse.
  simpl json_image in Hparse. unfold saveTodos, setItem.
  rewrite (loadTodos_array J _ _ _ Hempty (lookup_insert_eq st STORAGE_KEY _) Hparse).
  apply narrow_image.
Qed.

(** C5 (as amended): persistence round-trip: for every collection [C]
    whose records have a finite [createdAt], running Save(C) and then
    Load() yields a collection equal to [C] field for field, in the same
    order. *)
Theorem save_then_load (J : JSONCodec) (st : Storage) (C : list Todo) :
  lawful J →
  Forall (λ t, is_finite (createdAt t) = true) C →
  loadTodos J (saveTodos J st C) = C.
Proof.
  intros HJ Hfin. rewrite loadTodos_saveTodos by done. by apply filter_all.
Qed.

Lemma save_then_load_witness :
  loadTodos ecma (saveTodos ecma ∅ [walk_dog; buy_milk]) = [walk_dog; buy_milk].
Proof.
  apply (save_then_load ecma ∅ [walk_dog; buy_milk] ecma_lawful).
  repeat constructor.
Defined.

(** Records written by Save from a collection with distinct identifiers
    load with distinct identifiers. *)
Lemma loadTodos_saveTodos_NoDup (J : JSONCodec) (st : Storage) (C : list Todo) :
  lawful J → NoDup (id <$> C) →
  NoDup (id <$> loadTodos J (saveTodos J st C)).
Proof.
  intros HJ Hnd. rewrite loadTodos_saveTodos by done.
  by apply filter_keeps_NoDup_ids.
Qed.

(** C5, as stated, fails on a record whose [createdAt] is [NaN], which is
    a [number]: [JSON.stringify] writes [null] for it and the guard of
    [loadTodos] drops the record. *)
Lemma nan_record_is_not_restored :
  loadTodos ecma (saveTodos ecma ∅ [not_a_number_todo]) ≠ [not_a_number_todo].
Proof. vm_compute. discriminate. Qed.

(** C8, as stated, fails on Hydrate: the guard of [loadTodos] checks the
    shape of each record and nothing else, and [hydrate] takes the
    records as they are. *)
Lemma hydrate_admits_equal_identifiers :
  reachable ecma
    (todosReducer (mkEnv uuid_2 0) [] (Hydrate (loadTodos ecma twin_storage)))
  ∧ ¬ NoDup (id <$> todosReducer (mkEnv uuid_2 0) []
                      (Hydrate (loadTodos ecma twin_storage))).
Proof.
  split; [apply reachable_hydrate, reachable_init|].
  assert (loadTodos ecma twin_storage = [buy_milk; flip_completed buy_milk]) as ->
    by (vm_compute; reflexivity).
  simpl. intros Hnd. apply NoDup_cons in Hnd as [Hnotin _].
  apply Hnotin. left.
Qed.

(** * The derived views *)

Lemma completed_true_iff (t : Todo) : completed t = true ↔ ¬ completed t = false.
Proof. destruct (completed t); split; congruence. Qed.

Lemma filter_completed_alt (C : list Todo) :
  filter (λ t, completed t = true) C = filter (λ t, ¬ completed t = false) C.
Proof. apply list_filter_iff. intros t. apply completed_true_iff. Qed.

(** X1: the Active and the Completed view split the collection: together
    they hold the records of the collection, each once, no record is in
    both, their lengths add up to the length of the collection, and every
    view lists its records in the order of the collection. *)
Theorem filtered_partition (todos : list Todo) :
  filtered todos Active ++ filtered todos Completed ≡ₚ todos
  ∧ (length (filtered todos Active) + length (filtered todos Completed)
     = length todos)%nat
  ∧ (∀ t, t ∈ filtered todos Active → t ∉ filtered todos Completed)
  ∧ (∀ flt, filtered todos flt `sublist_of` todos)
  ∧ filtered todos All = todos.
Proof.
  assert (filtered todos Active ++ filtered todos Completed ≡ₚ todos) as Hperm.
  { simpl. rewrite filter_completed_alt. apply filter_app_complement. }
  split; [done|]. split; [|split; [|split]].
  - by rewrite <- length_app, Hperm.
  - simpl. intros t [Ha _]%list_elem_of_filter [Hc _]%list_elem_of_filter.
    congruence.
  - intros [ | | ]; simpl; [done|apply sublist_filter|apply sublist_filter].
  - done.
Qed.

Lemma remaining_cons (t : Todo) (C : list Todo) :
  remaining (t :: C) = ((if completed t then 0 else 1) + remaining C)%nat.
Proof.
  unfold remaining. rewrite filter_cons.
  destruct (completed t); [by rewrite decide_False|by rewrite decide_True].
Qed.

(** X2: [remaining] is the length of the Active view, at most the length
    of the collection; it is 0 exactly when every record is completed and
    the length of the collection exactly when none is. *)
Theorem remaining_counts_active (todos : list Todo) :
  remaining todos = length (filtered todos Active)
  ∧ (remaining todos ≤ length todos)%nat
  ∧ (remaining todos = 0%nat ↔ Forall (λ t, completed t = true) todos)
  ∧ (remaining todos = length todos ↔ Forall (λ t, completed t = false) todos).
Proof.
  split; [done|]. split; [apply length_filter|].
  induction todos as [|t C [IH0 IHn]]; [by split; split|].
  pose proof (length_filter (λ t, completed t = false) C) as Hle.
  fold (remaining C) in Hle.
  rewrite remaining_cons, !Forall_cons. simpl length.
  destruct (completed t); split; split; try lia; try (intros [? ?]; done).
  - intros H. split; [done|]. apply IH0. lia.
  - intros [_ H]. apply IH0 in H. lia.
  - intros H. split; [done|]. apply IHn. lia.
  - intros [_ H]. apply IHn in H. lia.
Qed.



(** * How the transitions compose *)

Lemma filter_idemp {A : Type} (P : A → Prop) `{!∀ x, Decision (P x)} (l : list A) :
  filter P (filter P l) = filter P l.
Proof.
  apply filter_all, Forall_forall. intros x Hx.
  by apply list_elem_of_filter in Hx as [HP _].
Qed.

Lemma filter_none {A : Type} (P : A → Prop) `{!∀ x, Decision (P x)} (l : list A) :
  Forall (λ x, ¬ P x) l → filter P l = [].
Proof.
  induction 1 as [|x l Hx _ IH]; [done|]. by rewrite filter_cons_False.
Qed.

Lemma filter_comm {A : Type} (P Q : A → Prop)
  `{!∀ x, Decision (P x)} `{!∀ x, Decision (Q x)} (l : list A) :
  filter P (filter Q l) = filter Q (filter P l).
Proof.
  induction l as [|x l IH]; [done|]. rewrite !filter_cons.
  destruct (decide (P x)), (decide (Q x));
    rewrite ?filter_cons_True, ?filter_cons_False by done; by rewrite IH.
Qed.

Lemma filter_fmap_stable {A : Type} (P : A → Prop) `{!∀ x, Decision (P x)}
  (f : A → A) (l : list A) :
  (∀ x, P (f x) ↔ P x) → filter P (f <$> l) = f <$> filter P l.
Proof.
  intros Hf. induction l as [|x l IH]; [done|].
  rewrite fmap_cons, !filter_cons.
  destruct (decide (P x)) as [Hx|Hx].
  - rewrite decide_True by (by apply Hf). by rewrite fmap_cons, IH.
  - rewrite decide_False by (by rewrite Hf). done.
Qed.

Lemma filter_length_full {A : Type} (P : A → Prop) `{!∀ x, Decision (P x)}
  (l : list A) :
  length (filter P l) = length l → filter P l = l.
Proof.
  induction l as [|x l IH]; [done|]. rewrite filter_cons.
  pose proof (length_filter P l) as Hle.
  destruct (decide (P x)); simpl; intros Hlen.
  - rewrite IH; [done|lia].
  - lia.
Qed.

(** X4: ClearCompleted, seen through the views: it is idempotent, it
    leaves the Active view and [remaining] as they were, it empties the
    Completed view, and it returns the collection itself exactly when
    [remaining] is the length of the collection. *)
Theorem clearCompleted_views (env env' : Env) (C : list Todo) :
  todosReducer env' (todosReducer env C ClearCompleted) ClearCompleted
  = todosReducer env C ClearCompleted
  ∧ filtered (todosReducer env C ClearCompleted) Active = filtered C Active
  ∧ filtered (todosReducer env C ClearCompleted) Completed = []
  ∧ remaining (todosReducer env C ClearCompleted) = remaining C
  ∧ todosReducer env C ClearCompleted = filtered C Active
  ∧ (todosReducer env C ClearCompleted = C ↔ remaining C = length C).
Proof.
  unfold remaining. simpl. rewrite !filter_idemp. repeat split; try done.
  - apply filter_none, Forall_forall. intros t Ht.
    apply list_elem_of_filter in Ht as [Ht _]. congruence.
  - by intros ->.
  - apply filter_length_full.
Qed.

(** X5: Remove deletes every record with the identifier: no record of the
    result has it, the records with another identifier stay as they are
    and in order, a second Remove of the same identifier changes nothing,
    and the length drops by the number of records that had it. *)
Theorem remove_deletes_all (env env' : Env) (C : list Todo) (i : string) :
  (i ∉ id <$> todosReducer env C (Remove i))
  ∧ (∀ t, t ∈ todosReducer env C (Remove i) ↔ t ∈ C ∧ id t ≠ i)
  ∧ todosReducer env' (todosReducer env C (Remove i)) (Remove i)
    = todosReducer env C (Remove i)
  ∧ (length (todosReducer env C (Remove i))
     + length (filter (λ t, id t = i) C) = length C)%nat.
Proof.
  simpl. split; [|split; [|split]].
  - intros (t & Hi & Ht)%list_elem_of_fmap.
    apply list_elem_of_filter in Ht as [Hne _]. by destruct Hne.
  - intros t. rewrite list_elem_of_filter. tauto.
  - apply filter_idemp.
  - rewrite Nat.add_comm, <- length_app.
    apply Permutation_length, (filter_app_complement (λ t, id t = i)).
Qed.

(** X6: the order of two transitions does not matter for two Toggles, for
    two Removes, for a Toggle and a Remove, and for ClearCompleted and a
    Remove. *)
Theorem transitions_commute (e1 e2 e3 e4 : Env) (C : list Todo) (i j : string) :
  todosReducer e2 (todosReducer e1 C (Toggle i)) (Toggle j)
  = todosReducer e4 (todosReducer e3 C (Toggle j)) (Toggle i)
  ∧ todosReducer e2 (todosReducer e1 C (Remove i)) (Remove j)
    = todosReducer e4 (todosReducer e3 C (Remove j)) (Remove i)
  ∧ todosReducer e2 (todosReducer e1 C (Toggle i)) (Remove j)
    = todosReducer e4 (todosReducer e3 C (Remove j)) (Toggle i)
  ∧ todosReducer e2 (todosReducer e1 C ClearCompleted) (Remove j)
    = todosReducer e4 (todosReducer e3 C (Remove j)) ClearCompleted.
Proof.
  simpl. split; [|split; [|split]].
  - rewrite <- !list_fmap_compose. apply list_fmap_ext. intros _ t _. simpl.
    destruct (decide (id t = i)), (decide (id t = j)); simpl;
      repeat case_decide; done.
  - apply filter_comm.
  - apply filter_fmap_stable. intros t. by destruct (decide (id t = i)).
  - apply filter_comm.
Qed.

(** ClearCompleted and Toggle do not commute. *)
Lemma clearCompleted_toggle_order_matters :
  todosReducer (mkEnv uuid_1 0) (todosReducer (mkEnv uuid_1 0) [buy_milk] (Toggle uuid_1))
    ClearCompleted
  ≠ todosReducer (mkEnv uuid_1 0)
      (todosReducer (mkEnv uuid_1 0) [buy_milk] ClearCompleted) (Toggle uuid_1).
Proof. vm_compute. discriminate. Qed.

(** X7: an Add of non-blank text followed by a Remove of the identifier it
    drew gives back the collection, provided the drawn identifier was not
    already in it. *)
Theorem add_then_remove (env env' : Env) (C : list Todo) (t : string) :
  trim t ≠ "" → randomUUID env ∉ id <$> C →
  todosReducer env' (todosReducer env C (Add t)) (Remove (randomUUID env)) = C.
Proof.
  intros Ht Hfresh. simpl. rewrite decide_False by done.
  rewrite filter_cons_False by (simpl; tauto).
  by apply remove_unknown_id.
Qed.

Lemma add_then_remove_witness :
  todosReducer (mkEnv uuid_1 1)
    (todosReducer (mkEnv uuid_1 0) [walk_dog] (Add "Buy milk")) (Remove uuid_1)
  = [walk_dog].
Proof.
  apply (add_then_remove (mkEnv uuid_1 0) (mkEnv uuid_1 1) [walk_dog] "Buy milk").
  - vm_compute. discriminate.
  - vm_compute. intros H. apply list_elem_of_In in H. simpl in H.
    destruct H as [H|[]]. discriminate H.
Defined.

(** With a repeated identifier the Remove takes the older record with
    it. *)
Lemma add_then_remove_takes_twin :
  todosReducer (mkEnv uuid_1 1)
    (todosReducer (mkEnv uuid_1 0) [buy_milk] (Add "Walk dog")) (Remove uuid_1)
  = [].
Proof. vm_compute. reflexivity. Qed.

Lemma remaining_app (l k : list Todo) :
  remaining (l ++ k) = (remaining l + remaining k)%nat.
Proof. unfold remaining. by rewrite filter_app, length_app. Qed.

Lemma NoDup_ids_split (C : list Todo) (t : Todo) :
  NoDup (id <$> C) → t ∈ C →
  ∃ l1 l2, C = l1 ++ t :: l2 ∧ (id t ∉ id <$> l1) ∧ (id t ∉ id <$> l2).
Proof.
  intros Hnd (l1 & l2 & ->)%list_elem_of_split. exists l1, l2.
  rewrite fmap_app, fmap_cons in Hnd.
  apply NoDup_app in Hnd as (_ & Hdisj & Hnd2).
  apply NoDup_cons in Hnd2 as [Hnotin _].
  split; [done|]. split; [|done].
  intros Hin. apply (Hdisj _ Hin). left.
Qed.

Lemma toggle_app (i : string) (l k : list Todo) :
  (λ t, if decide (id t = i) then flip_completed t else t) <$> (l ++ k)
  = ((λ t, if decide (id t = i) then flip_completed t else t) <$> l)
    ++ ((λ t, if decide (id t = i) then flip_completed t else t) <$> k).
Proof. apply fmap_app. Qed.

(** X8: the counter "n left" under the transitions, for a collection with
    pairwise distinct identifiers and a record [t] of it: an Add of
    non-blank text raises it by one and an Add of blank text leaves it;
    a Toggle of [t] raises it by one when [t] was completed and lowers it
    by one when it was not; a Remove of [t] lowers it by one when [t] was
    not completed and leaves it when it was. *)
Theorem remaining_follows (env : Env) (C : list Todo) (t : Todo) (txt : string) :
  NoDup (id <$> C) → t ∈ C →
  remaining (todosReducer env C (Add txt))
  = (if decide (trim txt = "") then remaining C else S (remaining C))
  ∧ remaining (todosReducer env C (Toggle (id t)))
    = (if completed t then S (remaining C) else pred (remaining C))
  ∧ remaining (todosReducer env C (Remove (id t)))
    = (if completed t then remaining C else pred (remaining C))
  ∧ length (todosReducer env C (Remove (id t))) = pred (length C).
Proof.
  intros Hnd Ht. split.
  { simpl. destruct (decide (trim txt = "")); [done|]. by rewrite remaining_cons. }
  destruct (NoDup_ids_split C t Hnd Ht) as (l1 & l2 & -> & H1 & H2).
  simpl. split; [|split].
  - rewrite toggle_app, fmap_cons, decide_True by done.
    rewrite !toggle_unknown_id by done.
    rewrite !remaining_app, !remaining_cons. destruct t as [i x [] n]; simpl; lia.
  - rewrite filter_app, filter_cons_False by tauto.
    rewrite !remove_unknown_id by done.
    rewrite !remaining_app, !remaining_cons. destruct (completed t); simpl; lia.
  - rewrite filter_app, filter_cons_False by tauto.
    rewrite !remove_unknown_id by done.
    rewrite !length_app. simpl. lia.
Qed.

Lemma remaining_follows_witness :
  remaining (todosReducer (mkEnv uuid_1 0) [walk_dog; buy_milk] (Add "Feed cat"))
  = (if decide (trim "Feed cat" = "") then remaining [walk_dog; buy_milk]
     else S (remaining [walk_dog; buy_milk]))
  ∧ remaining (todosReducer (mkEnv uuid_1 0) [walk_dog; buy_milk] (Toggle (id buy_milk)))
    = (if completed buy_milk then S (remaining [walk_dog; buy_milk])
       else pred (remaining [walk_dog; buy_milk]))
  ∧ remaining (todosReducer (mkEnv uuid_1 0) [walk_dog; buy_milk] (Remove (id buy_milk)))
    = (if completed buy_milk then remaining [walk_dog; buy_milk]
       else pred (remaining [walk_dog; buy_milk]))
  ∧ length (todosReducer (mkEnv uuid_1 0) [walk_dog; buy_milk] (Remove (id buy_milk)))
    = pred (length [walk_dog; buy_milk]).
Proof.
  apply (remaining_follows (mkEnv uuid_1 0) [walk_dog; buy_milk] buy_milk "Feed cat").
  - vm_compute. apply NoDup_cons. split.
    + intros H. apply list_elem_of_In in H. simpl in H. destruct H as [H|[]].
      discriminate H.
    + apply NoDup_singleton.
  - right. left.
Defined.

(** X9: no transition but Hydrate edits a record: every record of the
    result is the record drawn by an Add, or has the identifier, the text
    and the creation time of a record of the collection; no identifier
    appears but the drawn one, and the result is at most one record
    longer. *)
Theorem records_are_never_edited (env : Env) (C : list Todo) (a : Action) :
  (∀ todos, a ≠ Hydrate todos) →
  (∀ t', t' ∈ todosReducer env C a →
     (∃ t, t ∈ C ∧ id t' = id t ∧ text t' = text t ∧ createdAt t' = createdAt t)
     ∨ (∃ txt, a = Add txt
          ∧ t' = mkTodo (randomUUID env) (trim txt) false (Finite (now env))))
  ∧ (∀ i, i ∈ id <$> todosReducer env C a → i = randomUUID env ∨ i ∈ id <$> C)
  ∧ (length (todosReducer env C a) ≤ S (length C))%nat.
Proof.
  intros Hnh.
  assert (∀ t', t' ∈ todosReducer env C a →
     (∃ t, t ∈ C ∧ id t' = id t ∧ text t' = text t ∧ createdAt t' = createdAt t)
     ∨ (∃ txt, a = Add txt
          ∧ t' = mkTodo (randomUUID env) (trim txt) false (Finite (now env))))
    as Hrec.
  { destruct a as [txt|i|i| |todos]; simpl; intros t' Ht'.
    - destruct (decide (trim txt = "")); [left; by exists t'|].
      apply elem_of_cons in Ht' as [->|Ht']; [right; by exists txt|left; by exists t'].
    - apply list_elem_of_fmap in Ht' as (t & -> & Ht). left. exists t.
      by destruct (decide (id t = i)).
    - apply list_elem_of_filter in Ht' as [_ Ht']. left. by exists t'.
    - apply list_elem_of_filter in Ht' as [_ Ht']. left. by exists t'.
    - by destruct (Hnh todos). }
  split; [done|]. split.
  - intros i (t' & -> & Ht')%list_elem_of_fmap.
    destruct (Hrec t' Ht') as [(t & Ht & -> & _)|(txt & _ & ->)].
    + right. apply list_elem_of_fmap. by exists t.
    + by left.
  - destruct a as [txt|i|i| |todos]; simpl.
    + destruct (decide (trim txt = "")); simpl; lia.
    + rewrite length_fmap. lia.
    + pose proof (length_filter (λ t, id t ≠ i) C). lia.
    + pose proof (length_filter (λ t, completed t = false) C). lia.
    + by destruct (Hnh todos).
Qed.

Lemma records_are_never_edited_witness :
  (∀ t', t' ∈ todosReducer (mkEnv uuid_1 0) [walk_dog] (Toggle uuid_2) →
     (∃ t, t ∈ [walk_dog] ∧ id t' = id t ∧ text t' = text t
           ∧ createdAt t' = createdAt t)
     ∨ (∃ txt, (Toggle uuid_2 : Action) = Add txt
          ∧ t' = mkTodo (randomUUID (mkEnv uuid_1 0)) (trim txt) false
                   (Finite (now (mkEnv uuid_1 0)))))
  ∧ (∀ i, i ∈ id <$> todosReducer (mkEnv uuid_1 0) [walk_dog] (Toggle uuid_2) →
          i = randomUUID (mkEnv uuid_1 0) ∨ i ∈ id <$> [walk_dog])
  ∧ (length (todosReducer (mkEnv uuid_1 0) [walk_dog] (Toggle uuid_2))
     ≤ S (length [walk_dog]))%nat.
Proof.
  apply (records_are_never_edited (mkEnv uuid_1 0) [walk_dog] (Toggle uuid_2)).
  intros todos H. discriminate H.
Defined.

(** * Texts *)

Lemma trimStart_head (s : string) :
  trimStart s = "" ∨ ∃ c s', trimStart s = String c s' ∧ is_white_space c = false.
Proof.
  induction s as [|c s IH]; [by left|]. simpl.
  destruct (is_white_space c) eqn:Hc; [done|]. right. by exists c, s.
Qed.

Lemma trimEnd_head (c : ascii) (s : string) :
  is_white_space c = false → ∃ r, trimEnd (String c s) = String c r.
Proof.
  intros Hc. simpl. rewrite Hc. destruct (trimEnd s); by eexists.
Qed.

Lemma trimEnd_idemp (s : string) : trimEnd (trimEnd s) = trimEnd s.
Proof.
  induction s as [|c s IH]; [done|]. simpl.
  destruct (trimEnd s) as [|d r] eqn:Hr.
  - destruct (is_white_space c) eqn:Hc; [done|]. simpl. by rewrite Hc.
  - simpl in *. by rewrite IH.
Qed.

Lemma trim_idemp (s : string) : trim (trim s) = trim s.
Proof.
  unfold trim. destruct (trimStart_head s) as [->|(c & s' & -> & Hc)]; [done|].
  destruct (trimEnd_head c s' Hc) as [r Hr]. rewrite Hr.
  simpl trimStart. rewrite Hc, <- Hr. apply trimEnd_idemp.
Qed.

Lemma Forall_filter_keep {A : Type} (P Q : A → Prop) `{!∀ x, Decision (Q x)}
  (l : list A) :
  Forall P l → Forall P (filter Q l).
Proof.
  rewrite !Forall_forall. intros HP x Hx.
  apply list_elem_of_filter in Hx as [_ Hx]. by apply HP.
Qed.

(** X10: what Add admits: the text of the record it creates is not empty
    and is its own trimmed form, and no transition but Hydrate brings a
    record whose text is not so into a collection that has none. *)
Theorem texts_stay_admitted (env : Env) (C : list Todo) (a : Action) :
  (∀ todos, a ≠ Hydrate todos) →
  Forall (λ t, admitted_text (text t)) C →
  Forall (λ t, admitted_text (text t)) (todosReducer env C a).
Proof.
  intros Hnh HC. destruct a as [txt|i|i| |todos]; simpl.
  - destruct (decide (trim txt = "")) as [|Hne]; [done|].
    constructor; [|done]. simpl. split; [done|apply trim_idemp].
  - apply Forall_fmap. eapply Forall_impl; [exact HC|]. intros t Ht. simpl.
    by destruct (decide (id t = i)).
  - by apply Forall_filter_keep.
  - by apply Forall_filter_keep.
  - by destruct (Hnh todos).
Qed.

Lemma texts_stay_admitted_witness :
  Forall (λ t, admitted_text (text t))
    (todosReducer (mkEnv uuid_1 0) [walk_dog] (Add "  Buy milk ")).
Proof.
  apply (texts_stay_admitted (mkEnv uuid_1 0) [walk_dog] (Add "  Buy milk ")).
  - intros todos H. discriminate H.
  - constructor; [|constructor]. split; [discriminate|reflexivity].
Defined.

(** Hydrate takes a record with a blank text as it is: the guard of
    [loadTodos] asks for a string, not for a text Add would admit. *)
Lemma hydrate_admits_blank_text :
  ¬ Forall (λ t, admitted_text (text t))
      (todosReducer (mkEnv uuid_1 0) []
         (Hydrate (loadTodos ecma
            {[ STORAGE_KEY :=
                 JSON.stringify
                   (JSArray [Todo_object (mkTodo uuid_1 "  " false (Finite 0))]) ]}))).
Proof.
  assert (loadTodos ecma
            {[ STORAGE_KEY :=
                 JSON.stringify
                   (JSArray [Todo_object (mkTodo uuid_1 "  " false (Finite 0))]) ]}
          = [mkTodo uuid_1 "  " false (Finite 0)]) as -> by (vm_compute; reflexivity).
  simpl. intros H. apply Forall_cons in H as [[_ H] _]. discriminate H.
Qed.

(** * More on the storage adapter *)



(** X12: what a Save followed by a Load keeps: exactly the records whose
    [createdAt] is finite, in order; a second Save and Load of the result
    loses nothing more. *)
Theorem save_then_load_keeps_finite (J : JSONCodec) (st st' : Storage)
  (C : list Todo) :
  lawful J →
  loadTodos J (saveTodos J st C) = filter (λ t, is_finite (createdAt t) = true) C
  ∧ loadTodos J (saveTodos J st C) `sublist_of` C
  ∧ loadTodos J (saveTodos J st' (loadTodos J (saveTodos J st C)))
    = loadTodos J (saveTodos J st C).
Proof.
  intros HJ. rewrite !loadTodos_saveTodos by done.
  split; [done|]. split; [apply sublist_filter|apply filter_idemp].
Qed.

Lemma save_then_load_keeps_finite_witness :
  loadTodos ecma (saveTodos ecma ∅ [not_a_number_todo; walk_dog])
  = filter (λ t, is_finite (createdAt t) = true) [not_a_number_todo; walk_dog]
  ∧ loadTodos ecma (saveTodos ecma ∅ [not_a_number_todo; walk_dog])
      `sublist_of` [not_a_number_todo; walk_dog]
  ∧ loadTodos ecma
      (saveTodos ecma ∅ (loadTodos ecma (saveTodos ecma ∅ [not_a_number_todo; walk_dog])))
    = loadTodos ecma (saveTodos ecma ∅ [not_a_number_todo; walk_dog]).
Proof.
  apply (save_then_load_keeps_finite ecma ∅ ∅ [not_a_number_todo; walk_dog]
           ecma_lawful).
Defined.

Lemma shows_narrows (x : JSValue) (t : Todo) :
  shows x t → is_Todo x = true ∧ as_Todo x = Some t.
Proof.
  intros (Hi & Hx & Hc & Hn). split.
  - apply is_Todo_spec. by eexists _, _, _, _.
  - unfold as_Todo. rewrite Hi, Hx, Hc, Hn. by destruct t.
Qed.

(** X13: Load takes an element for what its four properties say: when the
    slot decodes to an array whose elements each have an [id] and a [text]
    that are strings, a [completed] that is a boolean and a [createdAt]
    that is a number, Load returns the records of these four values, in
    order, whatever else the elements hold. *)
Theorem loadTodos_reads_four_properties (J : JSONCodec) (st : Storage)
  (raw : string) (items : list JSValue) (C : list Todo) :
  parse J "" = None →
  getItem st STORAGE_KEY = Some raw →
  parse J raw = Some (JSArray items) →
  Forall2 shows items C →
  loadTodos J st = C.
Proof.
  intros Hempty Hraw Hparse Hshows.
  rewrite (loadTodos_array J st raw items Hempty Hraw Hparse). clear Hparse.
  induction Hshows as [|x t items C Hx _ IH]; [done|].
  destruct (shows_narrows x t Hx) as [Hguard Hview].
  rewrite filter_cons_True by (by apply Is_true_true). simpl.
  rewrite Hview. f_equal. exact IH.
Qed.

Lemma loadTodos_reads_four_properties_witness :
  loadTodos ecma
    {[ STORAGE_KEY :=
         JSON.stringify
           (JSArray [JSObject [("note", JSNull);
                               ("createdAt", JSNumber (createdAt walk_dog));
                               ("text", JSString (text walk_dog));
                               ("completed", JSBoolean (completed walk_dog));
                               ("id", JSString (id walk_dog))]]) ]}
  = [walk_dog].
Proof.
  apply (loadTodos_reads_four_properties ecma _
           (JSON.stringify
              (JSArray [JSObject [("note", JSNull);
                                  ("createdAt", JSNumber (createdAt walk_dog));
                                  ("text", JSString (text walk_dog));
                                  ("completed", JSBoolean (completed walk_dog));
                                  ("id", JSString (id walk_dog))]]))
           [JSObject [("note", JSNull);
                      ("createdAt", JSNumber (createdAt walk_dog));
                      ("text", JSString (text walk_dog));
                      ("completed", JSBoolean (completed walk_dog));
                      ("id", JSString (id walk_dog))]]).
  - reflexivity.
  - reflexivity.
  - vm_compute. reflexivity.
  - constructor; [|constructor]. repeat split.
Defined.

(** * The component *)

Lemma returns_state_spec (env : Env) (C : list Todo) (a : Action) :
  returns_state a = true → todosReducer env C a = C.
Proof.
  destruct a as [txt|i|i| |todos]; simpl; try done.
  intros Hb%bool_decide_eq_true. by rewrite decide_True.
Qed.

Lemma dispatch_synced (J : JSONCodec) (env : Env) (app : App) (a : Action) :
  synced J app → synced J (dispatch J env app a).
Proof.
  intros Hs. unfold synced, dispatch. simpl.
  destruct (returns_state a) eqn:Hr.
  - by rewrite (returns_state_spec env _ a Hr).
  - unfold saveTodos, setItem, getItem. apply lookup_insert_eq.
Qed.


Lemma handle_synced (J : JSONCodec) (app : App) (ev : Event) :
  synced J app → synced J (handle J app ev).
Proof.
  intros Hs. destruct ev as [s|env|env i|env i|env|f]; [done| | | | |done].
  - by apply (dispatch_synced J env app (Add (default "" (app_input app)))).
  - by apply (dispatch_synced J env app (Toggle i)).
  - by apply (dispatch_synced J env app (Remove i)).
  - by apply (dispatch_synced J env app ClearCompleted).
Qed.


Lemma mount_synced (J : JSONCodec) (env : Env) (st : Storage) :
  synced J (mount J env st).
Proof.
  unfold mount, dispatch, synced. simpl.
  unfold saveTodos, setItem, getItem. apply lookup_insert_eq.
Qed.




(** The malformed record of [mixed_storage] is gone from the slot once
    the component is mounted. *)
Lemma mount_drops_malformed :
  getItem (app_storage (mount ecma (mkEnv uuid_1 0) mixed_storage)) STORAGE_KEY
  = Some (JSON.stringify (JSArray [Todo_object buy_milk])).
Proof. vm_compute. reflexivity. Qed.

Lemma run_snoc (J : JSONCodec) (app : App) (events : list Event) (ev : Event) :
  run J app (events ++ [ev]) = handle J (run J app events) ev.
Proof. unfold run. by rewrite foldl_app. Qed.



Lemma todosReducer_keeps_finite (env : Env) (C : list Todo) (a : Action) :
  (∀ todos, a ≠ Hydrate todos) →
  Forall (λ t, is_finite (createdAt t) = true) C →
  Forall (λ t, is_finite (createdAt t) = true) (todosReducer env C a).
Proof.
  intros Hnh HC. destruct a as [txt|i|i| |todos]; simpl.
  - destruct (decide (trim txt = "")); [done|]. by constructor.
  - apply Forall_fmap. eapply Forall_impl; [exact HC|]. intros t Ht. simpl.
    by destruct (decide (id t = i)).
  - by apply Forall_filter_keep.
  - by apply Forall_filter_keep.
  - by destruct (Hnh todos).
Qed.

Lemma handle_keeps_finite (J : JSONCodec) (app : App) (ev : Event) :
  Forall (λ t, is_finite (createdAt t) = true) (app_todos app) →
  Forall (λ t, is_finite (createdAt t) = true) (app_todos (handle J app ev)).
Proof.
  intros Hfin. destruct ev as [s|env|env i|env i|env|f]; [done| | | | |done].
  - by apply (todosReducer_keeps_finite env _ (Add (default "" (app_input app)))).
  - by apply (todosReducer_keeps_finite env _ (Toggle i)).
  - by apply (todosReducer_keeps_finite env _ (Remove i)).
  - by apply (todosReducer_keeps_finite env _ ClearCompleted).
Qed.

Lemma run_keeps_finite (J : JSONCodec) (app : App) (events : list Event) :
  Forall (λ t, is_finite (createdAt t) = true) (app_todos app) →
  Forall (λ t, is_finite (createdAt t) = true) (app_todos (run J app events)).
Proof.
  intros Hfin. induction events as [|ev events IH] using rev_ind; [done|].
  rewrite run_snoc. by apply handle_keeps_finite.
Qed.

Lemma run_synced (J : JSONCodec) (app : App) (events : list Event) :
  synced J app → synced J (run J app events).
Proof.
  intros Hs. induction events as [|ev events IH] using rev_ind; [done|].
  rewrite run_snoc. by apply handle_synced.
Qed.

(** X16: closing and reopening: when the records Load returned at the
    start of a session have finite creation times, mounting the component
    again on the storage the session leaves behind, after any events,
    shows the collection the session ended with. *)
Theorem reopen_restores (J : JSONCodec) (env env' : Env) (st : Storage)
  (events : list Event) :
  lawful J →
  Forall (λ t, is_finite (createdAt t) = true) (loadTodos J st) →
  app_todos (mount J env' (app_storage (run J (mount J env st) events)))
  = app_todos (run J (mount J env st) events).
Proof.
  intros [Hrt Hempty] Hfin.
  pose proof (run_keeps_finite J (mount J env st) events Hfin) as Hfin'.
  pose proof (run_synced J _ events (mount_synced J env st)) as Hs.
  change (app_todos (mount J env' (app_storage (run J (mount J env st) events))))
    with (loadTodos J (app_storage (run J (mount J env st) events))).
  pose proof (Hrt _ (Todo_object_well_formed
                       (app_todos (run J (mount J env st) events)))) as Hparse.
  simpl json_image in Hparse.
  rewrite (loadTodos_array J _ _ _ Hempty Hs Hparse), narrow_image.
  by apply filter_all.
Qed.

Lemma reopen_restores_witness :
  app_todos (mount ecma (mkEnv uuid_1 9)
               (app_storage (run ecma (mount ecma (mkEnv uuid_1 0) mixed_storage)
                               [Typing "Walk dog "; Submit (mkEnv uuid_2 1);
                                ChangeCheckbox (mkEnv uuid_1 2) uuid_1;
                                ClickFilter Active])))
  = app_todos (run ecma (mount ecma (mkEnv uuid_1 0) mixed_storage)
                 [Typing "Walk dog "; Submit (mkEnv uuid_2 1);
                  ChangeCheckbox (mkEnv uuid_1 2) uuid_1;
                  ClickFilter Active]).
Proof.
  apply (reopen_restores ecma (mkEnv uuid_1 0) (mkEnv uuid_1 9) mixed_storage
           [Typing "Walk dog "; Submit (mkEnv uuid_2 1);
            ChangeCheckbox (mkEnv uuid_1 2) uuid_1; ClickFilter Active]
           ecma_lawful).
  rewrite loadTodos_mixed_storage. repeat constructor.
Defined.



(** X18: changing the checkbox of a displayed item, in a collection with
    pairwise distinct identifiers: the item leaves the view it was in (no
    item of the Active view, respectively the Completed view, has its
    identifier afterwards) and its flipped record is in the other view;
    the number of items in the All view stays. *)
Theorem toggle_moves_between_views (env : Env) (C : list Todo) (t : Todo) :
  NoDup (id <$> C) → t ∈ C →
  (t ∈ filtered C Active →
     (id t ∉ id <$> filtered (todosReducer env C (Toggle (id t))) Active)
     ∧ flip_completed t ∈ filtered (todosReducer env C (Toggle (id t))) Completed)
  ∧ (t ∈ filtered C Completed →
       (id t ∉ id <$> filtered (todosReducer env C (Toggle (id t))) Completed)
       ∧ flip_completed t ∈ filtered (todosReducer env C (Toggle (id t))) Active)
  ∧ length (filtered (todosReducer env C (Toggle (id t))) All)
    = length (filtered C All).
Proof.
  intros Hnd Ht.
  destruct (NoDup_ids_split C t Hnd Ht) as (l1 & l2 & -> & H1 & H2).
  assert (todosReducer env (l1 ++ t :: l2) (Toggle (id t))
          = l1 ++ flip_completed t :: l2) as Hres.
  { simpl. rewrite toggle_app, fmap_cons, decide_True by done.
    by rewrite !toggle_unknown_id by done. }
  rewrite Hres.
  assert (∀ P : Todo → Prop, ∀ HP : (∀ x, Decision (P x)),
            ¬ P (flip_completed t) →
            id t ∉ id <$> filter P (l1 ++ flip_completed t :: l2)) as Hgone.
  { intros P HP HnP (x & Hid & Hx)%list_elem_of_fmap.
    apply list_elem_of_filter in Hx as [HPx Hx].
    apply elem_of_app in Hx as [Hx|Hx].
    - apply H1. apply list_elem_of_fmap. by exists x.
    - apply elem_of_cons in Hx as [->|Hx]; [done|].
      apply H2. apply list_elem_of_fmap. by exists x. }
  split; [|split].
  - simpl. intros [Hact _]%list_elem_of_filter. split.
    + apply Hgone. simpl. rewrite Hact. done.
    + apply list_elem_of_filter. split; [simpl; by rewrite Hact|].
      apply elem_of_app. right. left.
  - simpl. intros [Hc _]%list_elem_of_filter. split.
    + apply Hgone. simpl. rewrite Hc. done.
    + apply list_elem_of_filter. split; [simpl; by rewrite Hc|].
      apply elem_of_app. right. left.
  - simpl. rewrite !length_app. done.
Qed.

Lemma toggle_moves_between_views_witness :
  (id buy_milk ∉ id <$> filtered (todosReducer (mkEnv uuid_1 0) [walk_dog; buy_milk]
                                   (Toggle (id buy_milk))) Active)
  ∧ flip_completed buy_milk
      ∈ filtered (todosReducer (mkEnv uuid_1 0) [walk_dog; buy_milk]
                    (Toggle (id buy_milk))) Completed.
Proof.
  apply (toggle_moves_between_views (mkEnv uuid_1 0) [walk_dog; buy_milk] buy_milk).
  - vm_compute. apply NoDup_cons. split.
    + intros H. apply list_elem_of_In in H. simpl in H. destruct H as [H|[]].
      discriminate H.
    + apply NoDup_singleton.
  - right. left.
  - apply list_elem_of_filter. split; [reflexivity|]. right. left.
Defined.
